(** * mu51: the 8051 core of go51, embedded in Rocq

    The Go package [mu51] keeps the registers of an 8051 core in a struct
    [ALU], decodes opcodes through a 256-entry table and fetches
    instructions from a [CodeMemory].  This development embeds those
    functions as pure state-passing functions and proves what they do.

    Conventions of the embedding:
    - a Go [uint8] / [byte] is a [Z] in [0, 256), a [uint16] a [Z] in
      [0, 65536); every arithmetic operation of the source that can leave
      the range is followed by its wrap-around ([uint8], [uint16]);
    - the array [InternalRAM [256]byte] is a [list Z] of length 256, read
      with stdpp's lookup and written with stdpp's insert.  Every index of
      the source has type [byte], so no access is out of range;
    - a method with a pointer receiver [func (a *ALU) f(...)] becomes a
      function from the state before the call to the state after it (and
      the returned value, when there is one).

    The packages around the core are embedded in modules of their names:
    [ihex], the parsed hex file read as a flat memory, [hex], the record
    checksum, and [Emul], the map-backed memory. *)

From Stdlib Require Import ZArith Lia.
From stdpp Require Import base list gmap.

Local Open Scope Z_scope.

(** ** Machine integers *)

Definition uint8 (z : Z) : Z := z mod 256.
Definition uint16 (z : Z) : Z := z mod 65536.

Definition is_uint8 (z : Z) : Prop := 0 <= z < 256.
Definition is_uint16 (z : Z) : Prop := 0 <= z < 65536.

(** ** Program status word masks ([ParityBit uint8 = 0x01 << iota]) *)

Definition ParityBit : Z := 0x01.
Definition UserBit : Z := 0x02.
Definition OverFlowBit : Z := 0x04.
Definition RS0Bit : Z := 0x08.
Definition RS1Bit : Z := 0x10.
Definition FlagBit : Z := 0x20.
Definition AuxCarryBit : Z := 0x40.
Definition CarryBit : Z := 0x80.

(** Go's bit-clear operator [x &^ m]. *)
Definition andnot (x m : Z) : Z := Z.ldiff x m.

(** ** The register file *)

Record ALU : Type := mkALU {
  InternalRAM : list Z;  (* [256]byte *)
  StackPtr : Z;          (* byte *)
  DataPtr : Z;           (* uint16 *)
  ProgStatus : Z;        (* byte *)
  Accum : Z;             (* byte *)
  BReg : Z;              (* byte *)
  ProgCount : Z          (* uint16 *)
}.

(** The values a Go [ALU] can hold. *)
Record ALU_ok (a : ALU) : Prop := mkALU_ok {
  ok_ram_len : length (InternalRAM a) = 256%nat;
  ok_ram : Forall is_uint8 (InternalRAM a);
  ok_sp : is_uint8 (StackPtr a);
  ok_dptr : is_uint16 (DataPtr a);
  ok_psw : is_uint8 (ProgStatus a);
  ok_acc : is_uint8 (Accum a);
  ok_b : is_uint8 (BReg a);
  ok_pc : is_uint16 (ProgCount a)
}.

(** [m[i]] and [m[i] = v] for a byte index [i]. *)
Definition ramGet (m : list Z) (i : Z) : Z := default 0 (m !! Z.to_nat i).
Definition ramSet (m : list Z) (i v : Z) : list Z := <[Z.to_nat i := v]> m.

Definition setRAM (a : ALU) (m : list Z) : ALU :=
  mkALU m (StackPtr a) (DataPtr a) (ProgStatus a) (Accum a) (BReg a) (ProgCount a).
Definition setSP (a : ALU) (sp : Z) : ALU :=
  mkALU (InternalRAM a) sp (DataPtr a) (ProgStatus a) (Accum a) (BReg a) (ProgCount a).
Definition setPSW (a : ALU) (psw : Z) : ALU :=
  mkALU (InternalRAM a) (StackPtr a) (DataPtr a) psw (Accum a) (BReg a) (ProgCount a).
Definition setAccum (a : ALU) (v : Z) : ALU :=
  mkALU (InternalRAM a) (StackPtr a) (DataPtr a) (ProgStatus a) v (BReg a) (ProgCount a).
Definition setBReg (a : ALU) (v : Z) : ALU :=
  mkALU (InternalRAM a) (StackPtr a) (DataPtr a) (ProgStatus a) (Accum a) v (ProgCount a).
Definition setPC (a : ALU) (pc : Z) : ALU :=
  mkALU (InternalRAM a) (StackPtr a) (DataPtr a) (ProgStatus a) (Accum a) (BReg a) pc.

(** ** Stack primitives *)

(** [a.StackPtr++; a.InternalRAM[a.StackPtr] = byte] *)
Definition PushByte (a : ALU) (b : Z) : ALU :=
  let a1 := setSP a (uint8 (StackPtr a + 1)) in
  setRAM a1 (ramSet (InternalRAM a1) (StackPtr a1) b).

(** [b := a.InternalRAM[a.StackPtr]; a.StackPtr--; return b] *)
Definition PopByte (a : ALU) : Z * ALU :=
  let b := ramGet (InternalRAM a) (StackPtr a) in
  (b, setSP a (uint8 (StackPtr a - 1))).

(** [a.InternalRAM[a.StackPtr+1] = uint8(word)]
    [a.InternalRAM[a.StackPtr+2] = uint8(word >> 8)]
    [a.StackPtr += 2] *)
Definition PushWord (a : ALU) (word : Z) : ALU :=
  let a1 := setRAM a (ramSet (InternalRAM a) (uint8 (StackPtr a + 1)) (uint8 word)) in
  let a2 := setRAM a1 (ramSet (InternalRAM a1) (uint8 (StackPtr a1 + 2))
                              (uint8 (Z.shiftr word 8))) in
  setSP a2 (uint8 (StackPtr a2 + 2)).

(** [ret := uint16(a.InternalRAM[a.StackPtr]) << 8]
    [ret = ret | uint16(a.InternalRAM[a.StackPtr-1])]
    [a.StackPtr -= 2; return ret] *)
Definition PopWord (a : ALU) : Z * ALU :=
  let ret := uint16 (Z.shiftl (ramGet (InternalRAM a) (StackPtr a)) 8) in
  let ret := Z.lor ret (ramGet (InternalRAM a) (uint8 (StackPtr a - 1))) in
  (ret, setSP a (uint8 (StackPtr a - 2))).

(** ** Control transfer *)

(** [a.PushWord(a.ProgCount + 2)]
    [a.ProgCount = (a.ProgCount+2)&0xF800 + rel&0x7FF]
    In Go [&] binds tighter than [+]. *)
Definition InstrACALL (a : ALU) (rel : Z) : ALU :=
  let a1 := PushWord a (uint16 (ProgCount a + 2)) in
  setPC a1 (uint16 (Z.land (uint16 (ProgCount a1 + 2)) 0xF800 + Z.land rel 0x7FF)).

(** [a.ProgCount = (a.ProgCount+2)&0xF800 + rel&0x07FF] *)
Definition InstrAJMP (a : ALU) (rel : Z) : ALU :=
  setPC a (uint16 (Z.land (uint16 (ProgCount a + 2)) 0xF800 + Z.land rel 0x07FF)).

(** [a.ProgCount = a.PopWord()] *)
Definition InstrRET (a : ALU) : ALU :=
  let '(w, a1) := PopWord a in setPC a1 w.

(** [a.ProgCount = a.PopWord()] (no interrupts are modelled by the source) *)
Definition InstrRETI (a : ALU) : ALU :=
  let '(w, a1) := PopWord a in setPC a1 w.



(** [a.PushWord(a.ProgCount + 3); a.ProgCount = addr] *)
Definition InstrLCALL (a : ALU) (addr : Z) : ALU :=
  setPC (PushWord a (uint16 (ProgCount a + 3))) addr.

(** [a.ProgCount = addr] *)
Definition InstrLJMP (a : ALU) (addr : Z) : ALU := setPC a addr.

(** ** Arithmetic *)

(** [a.Accum = (a.Accum >> 4) & (a.Accum << 4)] *)
Definition InstrSWAP (a : ALU) : ALU :=
  setAccum a (Z.land (Z.shiftr (Accum a) 4) (uint8 (Z.shiftl (Accum a) 4))).

(** [var res = uint16(a.Accum) * uint16(a.BReg)]
    [a.BReg = uint8(res >> 16)]
    [a.Accum = uint8(res)]
    [a.ProgStatus = a.ProgStatus &^ CarryBit]
    [if res > 255 { a.ProgStatus |= OverFlowBit } else { a.ProgStatus &^= OverFlowBit }] *)
Definition InstrMUL (a : ALU) : ALU :=
  let res := uint16 (Accum a * BReg a) in
  let a1 := setBReg a (uint8 (Z.shiftr res 16)) in
  let a2 := setAccum a1 (uint8 res) in
  let a3 := setPSW a2 (andnot (ProgStatus a2) CarryBit) in
  if 255 <? res
  then setPSW a3 (Z.lor (ProgStatus a3) OverFlowBit)
  else setPSW a3 (andnot (ProgStatus a3) OverFlowBit).

(** [return ((a.ProgStatus >> 3) & 0x03) * 8]; the parameter [r] is not
    used by the body. *)
Definition regAddr (a : ALU) (r : Z) : Z :=
  uint8 (Z.land (Z.shiftr (ProgStatus a) 3) 0x03 * 8).

(** The bank base of the data sheet, [((statusWord>>3)&0x3)*8]. *)
Definition bankBase (statusWord : Z) : Z :=
  Z.land (Z.shiftr statusWord 3) 0x3 * 8.

(** [a.Accum, a.InternalRAM[loc] = a.InternalRAM[loc], a.Accum] *)
Definition xchAt (a : ALU) (loc : Z) : ALU :=
  let v := ramGet (InternalRAM a) loc in
  let acc := Accum a in
  setRAM (setAccum a v) (ramSet (InternalRAM a) loc acc).

Definition InstrXCHInd (a : ALU) (R1 : bool) : ALU :=
  let regLoc := if R1 then regAddr a 1 else regAddr a 0 in
  xchAt a (ramGet (InternalRAM a) regLoc).

Definition InstrXCHDir (a : ALU) (reg : Z) : ALU := xchAt a (regAddr a reg).

Definition InstrXCHImmed (a : ALU) (loc : Z) : ALU := xchAt a loc.

(** [func (a *ALU) InstrADDLit(literal uint8) { }]: the body is empty. *)
Definition InstrADDLit (a : ALU) (literal : Z) : ALU := a.

(** [var val = a.InternalRAM[addr]]: the value is read and dropped. *)
Definition InstrADDImmed (a : ALU) (addr : Z) : ALU :=
  let val := ramGet (InternalRAM a) addr in a.

(** A state to run the examples on: all zero. *)
Definition ALU0 : ALU := mkALU (replicate 256 0) 0 0 0 0 0 0.

(** ** Opcodes and the decode table *)

Inductive error : Type :=
  | ErrUnknownOpCode  (* errors.New("usage of unknown opcode 0xA5") *)
  | EOF               (* io.EOF, what a reader reports on a short read *)
  | ErrIO.            (* any other error of a memory *)

Inductive OpCode : Type :=
  | ACALL | ADD | ADDC | AJMP | ANL | CJNE | CLR | CPL | DA | DEC | DIV
  | DJNZ | INC | JB | JBC | JC | JMP | JNB | JNC | JNZ | JZ | LCALL | LJMP
  | MOV | MOVC | MOVX | MUL | NOP | ORL | POP | PUSH | RET | RETI | RL | RLC
  | RR | RRC | SJMP | SETB | SUBB | SWAP | XCH | XCHD | XRL | ERR.

Definition OpCode_eqb (x y : OpCode) : bool :=
  match x, y with
  | ACALL, ACALL | ADD, ADD | ADDC, ADDC | AJMP, AJMP | ANL, ANL
  | CJNE, CJNE | CLR, CLR | CPL, CPL | DA, DA | DEC, DEC | DIV, DIV
  | DJNZ, DJNZ | INC, INC | JB, JB | JBC, JBC | JC, JC | JMP, JMP
  | JNB, JNB | JNC, JNC | JNZ, JNZ | JZ, JZ | LCALL, LCALL | LJMP, LJMP
  | MOV, MOV | MOVC, MOVC | MOVX, MOVX | MUL, MUL | NOP, NOP | ORL, ORL
  | POP, POP | PUSH, PUSH | RET, RET | RETI, RETI | RL, RL | RLC, RLC
  | RR, RR | RRC, RRC | SJMP, SJMP | SETB, SETB | SUBB, SUBB | SWAP, SWAP
  | XCH, XCH | XCHD, XCHD | XRL, XRL | ERR, ERR => true
  | _, _ => false
  end.

(** [type decoded struct { len uint8; op OpCode }] *)
Record decoded : Type := D { len : Z; op : OpCode }.

(** [var decodeTable = [256]decoded{...}], four entries a line. *)
Definition decodeTable : list decoded :=
  [
    D 1 NOP; D 2 AJMP; D 3 LJMP; D 1 RR;  (* 0x00 *)
    D 1 INC; D 2 INC; D 1 INC; D 1 INC;  (* 0x04 *)
    D 1 INC; D 1 INC; D 1 INC; D 1 INC;  (* 0x08 *)
    D 1 INC; D 1 INC; D 1 INC; D 1 INC;  (* 0x0C *)
    D 3 JBC; D 2 ACALL; D 3 LCALL; D 1 RRC;  (* 0x10 *)
    D 1 DEC; D 2 DEC; D 1 DEC; D 1 DEC;  (* 0x14 *)
    D 1 DEC; D 1 DEC; D 1 DEC; D 1 DEC;  (* 0x18 *)
    D 1 DEC; D 1 DEC; D 1 DEC; D 1 DEC;  (* 0x1C *)
    D 3 JB; D 2 AJMP; D 1 RET; D 1 RL;  (* 0x20 *)
    D 2 ADD; D 2 ADD; D 1 ADD; D 1 ADD;  (* 0x24 *)
    D 1 ADD; D 1 ADD; D 1 ADD; D 1 ADD;  (* 0x28 *)
    D 1 ADD; D 1 ADD; D 1 ADD; D 1 ADD;  (* 0x2C *)
    D 3 JNB; D 2 ACALL; D 1 RETI; D 1 RLC;  (* 0x30 *)
    D 2 ADDC; D 2 ADDC; D 1 ADDC; D 1 ADDC;  (* 0x34 *)
    D 1 ADDC; D 1 ADDC; D 1 ADDC; D 1 ADDC;  (* 0x38 *)
    D 1 ADDC; D 1 ADDC; D 1 ADDC; D 1 ADDC;  (* 0x3C *)
    D 2 JC; D 2 AJMP; D 2 ORL; D 3 ORL;  (* 0x40 *)
    D 2 ORL; D 2 ORL; D 1 ORL; D 1 ORL;  (* 0x44 *)
    D 1 ORL; D 1 ORL; D 1 ORL; D 1 ORL;  (* 0x48 *)
    D 1 ORL; D 1 ORL; D 1 ORL; D 1 ORL;  (* 0x4C *)
    D 2 JNC; D 2 ACALL; D 2 ANL; D 3 ANL;  (* 0x50 *)
    D 2 ANL; D 2 ANL; D 1 ANL; D 1 ANL;  (* 0x54 *)
    D 1 ANL; D 1 ANL; D 1 ANL; D 1 ANL;  (* 0x58 *)
    D 1 ANL; D 1 ANL; D 1 ANL; D 1 ANL;  (* 0x5C *)
    D 2 JZ; D 2 AJMP; D 2 XRL; D 3 XRL;  (* 0x60 *)
    D 2 XRL; D 2 XRL; D 1 XRL; D 1 XRL;  (* 0x64 *)
    D 1 XRL; D 1 XRL; D 1 XRL; D 1 XRL;  (* 0x68 *)
    D 1 XRL; D 1 XRL; D 1 XRL; D 1 XRL;  (* 0x6C *)
    D 2 JNZ; D 2 ACALL; D 2 ORL; D 1 JMP;  (* 0x70 *)
    D 2 MOV; D 3 MOV; D 2 MOV; D 2 MOV;  (* 0x74 *)
    D 2 MOV; D 2 MOV; D 2 MOV; D 2 MOV;  (* 0x78 *)
    D 2 MOV; D 2 MOV; D 2 MOV; D 2 MOV;  (* 0x7C *)
    D 2 SJMP; D 2 AJMP; D 2 ANL; D 1 MOVC;  (* 0x80 *)
    D 1 DIV; D 3 MOV; D 2 MOV; D 2 MOV;  (* 0x84 *)
    D 2 MOV; D 2 MOV; D 2 MOV; D 2 MOV;  (* 0x88 *)
    D 2 MOV; D 2 MOV; D 2 MOV; D 2 MOV;  (* 0x8C *)
    D 3 MOV; D 2 ACALL; D 2 MOV; D 1 MOVC;  (* 0x90 *)
    D 2 SUBB; D 2 SUBB; D 1 SUBB; D 1 SUBB;  (* 0x94 *)
    D 1 SUBB; D 1 SUBB; D 1 SUBB; D 1 SUBB;  (* 0x98 *)
    D 1 SUBB; D 1 SUBB; D 1 SUBB; D 1 SUBB;  (* 0x9C *)
    D 2 ORL; D 2 AJMP; D 2 MOV; D 1 INC;  (* 0xA0 *)
    D 1 MUL; D 1 ERR; D 2 MOV; D 2 MOV;  (* 0xA4 *)
    D 2 MOV; D 2 MOV; D 2 MOV; D 2 MOV;  (* 0xA8 *)
    D 2 MOV; D 2 MOV; D 2 MOV; D 2 MOV;  (* 0xAC *)
    D 2 ANL; D 2 ACALL; D 2 CPL; D 1 CPL;  (* 0xB0 *)
    D 3 CJNE; D 3 CJNE; D 3 CJNE; D 3 CJNE;  (* 0xB4 *)
    D 3 CJNE; D 3 CJNE; D 3 CJNE; D 3 CJNE;  (* 0xB8 *)
    D 3 CJNE; D 3 CJNE; D 3 CJNE; D 3 CJNE;  (* 0xBC *)
    D 2 PUSH; D 2 AJMP; D 2 CLR; D 1 CLR;  (* 0xC0 *)
    D 1 SWAP; D 2 XCH; D 1 XCH; D 1 XCH;  (* 0xC4 *)
    D 1 XCH; D 1 XCH; D 1 XCH; D 1 XCH;  (* 0xC8 *)
    D 1 XCH; D 1 XCH; D 1 XCH; D 1 XCH;  (* 0xCC *)
    D 2 POP; D 2 ACALL; D 2 SETB; D 1 SETB;  (* 0xD0 *)
    D 1 DA; D 3 DJNZ; D 1 XCHD; D 1 XCHD;  (* 0xD4 *)
    D 2 DJNZ; D 2 DJNZ; D 2 DJNZ; D 2 DJNZ;  (* 0xD8 *)
    D 2 DJNZ; D 2 DJNZ; D 2 DJNZ; D 2 DJNZ;  (* 0xDC *)
    D 1 MOVX; D 2 AJMP; D 1 MOVX; D 1 MOVX;  (* 0xE0 *)
    D 1 CLR; D 2 MOV; D 1 MOV; D 1 MOV;  (* 0xE4 *)
    D 1 MOV; D 1 MOV; D 1 MOV; D 1 MOV;  (* 0xE8 *)
    D 1 MOV; D 1 MOV; D 1 MOV; D 1 MOV;  (* 0xEC *)
    D 1 MOVX; D 2 ACALL; D 1 MOVX; D 1 MOVX;  (* 0xF0 *)
    D 1 CPL; D 2 MOV; D 1 MOV; D 1 MOV;  (* 0xF4 *)
    D 1 MOV; D 1 MOV; D 1 MOV; D 1 MOV;  (* 0xF8 *)
    D 1 MOV; D 1 MOV; D 1 MOV; D 1 MOV  (* 0xFC *)
  ].

(** [decodeTable[b]] for a byte [b]. *)
Definition tableAt (b : Z) : decoded :=
  default (D 0 ERR) (decodeTable !! Z.to_nat b).

(** ** Memories *)

(** [type CodeMemory interface { ReadAt([]byte, int64) (int, error); Size() int64 }].
    [ReadAt n off] is a call [ReadAt(p, off)] with [len(p) = n]: it gives
    the bytes the memory stores into [p], from [p[0]] on (their number is
    the returned [int]), and the returned error ([None] for [nil]). *)
Record CodeMemory : Type := mkCodeMemory {
  ReadAt : nat -> Z -> list Z * option error;
  Size : Z
}.

(** [type RAM interface], [CodeMemory] and [WriteAt([]byte, int64) (int, error)]. *)
Record RAM : Type := mkRAM {
  ram_ReadAt : nat -> Z -> list Z * option error;
  ram_WriteAt : list Z -> Z -> Z * option error;
  ram_Size : Z
}.

(** A code memory over a byte slice [s], reading as Go's readers do: the
    bytes from [off] on are copied, and a read that cannot fill the buffer
    reports [io.EOF] with the count of the bytes it did copy. *)
Definition sliceMem (s : list Z) : CodeMemory :=
  mkCodeMemory
    (fun n off =>
       if (off <? 0) || (Z.of_nat (length s) <=? off) then ([], Some EOF)
       else let data := take n (drop (Z.to_nat off) s) in
            (data, if (length data <? n)%nat then Some EOF else None))
    (Z.of_nat (length s)).

(** The effect on the buffer [b] of [c.ReadAt(b[lo:hi], off)] with its
    results dropped: the bytes read overwrite [b] from index [lo] on, never
    beyond the slice. *)
Definition readInto (c : CodeMemory) (b : list Z) (lo hi : nat) (off : Z) : list Z :=
  let data := take (hi - lo) (fst (ReadAt c (hi - lo)%nat off)) in
  take lo b ++ data ++ drop (lo + length data) b.

(** ** Instruction fetch *)

(** [b := make([]byte, 3)]
    [c.ReadAt(b[:1], offset)]
    [d := decodeTable[b[0]]]
    [if d.len > 1 { c.ReadAt(b[1:d.len-1], offset) }]
    [return d.op, b[:d.len], nil] *)
Definition ReadInstruction (c : CodeMemory) (offset : Z)
  : OpCode * list Z * option error :=
  let b := replicate 3 0 in
  let b := readInto c b 0 1 offset in
  let d := tableAt (default 0 (b !! 0%nat)) in
  let b := if 1 <? len d
           then readInto c b 1 (Z.to_nat (uint8 (len d - 1))) offset
           else b in
  (op d, take (Z.to_nat (len d)) b, None).

(** ** The CPU *)

(** [type CPU struct { *ALU; ReadCallbacks [256]func() uint8;
    WriteCallbacks [256]func(uint8); ExtRAM RAM; ProgMem CodeMemory }].
    The embedded pointer and the function values may be [nil]. *)
Record CPU : Type := mkCPU {
  cpu_ALU : option ALU;
  ReadCallbacks : list (option (unit -> Z));
  WriteCallbacks : list (option (Z -> unit));
  ExtRAM : option RAM;
  ProgMem : option CodeMemory
}.

(** [type Operation func(c *CPU) error]; a function value may be [nil]. *)
Definition Operation : Type := CPU -> CPU * option error.

(** [func DecodeInstruction(op OpCode, data []byte) Operation]: a [switch]
    whose listed cases have empty bodies (Go does not fall through),
    followed by [return nil]. *)
Definition DecodeInstruction (o : OpCode) (data : list Z) : option Operation :=
  match o with
  | ANL | CJNE | CLR | CPL | DA | DEC | DIV | DJNZ | INC | JB | JBC | JC
  | JMP | JNB | JNC | JNZ | JZ | MOV | MOVC | MOVX | NOP | ORL | RL | RLC
  | RR | RRC | SJMP | SETB | SUBB | XCHD | XRL => None
  | _ => None
  end.

(** [func (c *CPU) Step() error { return nil }] *)
Definition Step (c : CPU) : CPU * option error := (c, None).

(** ** Checking the table entry by entry *)

(** What entry [i] of the table has to satisfy: a length of 1, 2 or 3, and
    the mnemonic [ERR] at index [0xA5] and nowhere else. *)
Definition entry_ok (i : nat) (d : decoded) : bool :=
  ((len d =? 1) || (len d =? 2) || (len d =? 3))
  && Bool.eqb (OpCode_eqb (op d) ERR) (i =? 0xA5)%nat.

Definition index_ok (i : nat) : bool :=
  match decodeTable !! i with
  | Some d => entry_ok i d
  | None => false
  end.

(** ** Checking the addressing-mode bit patterns of the table *)

Definition decoded_eqb (x y : decoded) : bool :=
  (len x =? len y) && OpCode_eqb (op x) (op y).

(** Entry [i] follows the patterns: [AJMP] exactly at [xxx00001], [ACALL]
    exactly at [xxx10001], both two bytes long; an opcode with bit 3 set
    (register [Rn]) has the entry of its [R0] form, and an opcode ending in
    [011x] (indirect [@Ri]) has the entry of its [@R0] form. *)
Definition pattern_ok (i : nat) : bool :=
  let b := Z.of_nat i in
  let d := tableAt b in
  Bool.eqb (OpCode_eqb (op d) AJMP) (Z.land b 0x1F =? 0x01)
  && Bool.eqb (OpCode_eqb (op d) ACALL) (Z.land b 0x1F =? 0x11)
  && (if OpCode_eqb (op d) AJMP || OpCode_eqb (op d) ACALL then len d =? 2 else true)
  && (if Z.testbit b 3 then decoded_eqb d (tableAt (Z.land b 0xF8)) else true)
  && (if Z.land b 0x0E =? 0x06 then decoded_eqb d (tableAt (Z.land b 0xFE)) else true).

(** ** States and memories of the examples *)

(** [programCounter = 0x0100], stack pointer at 7 (its reset value). *)
Definition call_state : ALU := setSP (setPC ALU0 0x0100) 7.

(** [accumulator = 200], [bRegister = 200]. *)
Definition mul_state : ALU := setBReg (setAccum ALU0 200) 200.

(** [accumulator = 0xFF], all flags clear. *)
Definition add_state : ALU := setAccum ALU0 0xFF.

(** [LJMP 0x1234] at offset 0. *)
Definition ljmp_mem : CodeMemory := sliceMem [0x02; 0x12; 0x34].

(** [MOV A, #0x55] at offset 0. *)
Definition mov_mem : CodeMemory := sliceMem [0x74; 0x55].

(** A code memory of size 0: every read is short. *)
Definition empty_mem : CodeMemory := sliceMem [].

(** The reserved opcode at offset 0. *)
Definition a5_mem : CodeMemory := sliceMem [0xA5].

(** * ihex: a parsed Intel HEX file read as a flat memory

    The package [ihex] keeps the data records of a hex file as a list of
    [Record]s sorted by offset, and reads it as if it were one contiguous
    memory, with a pad byte where no record lies.  A [uint32] is a [Z] in
    [0, 2^32) with its wrap-around written out; an index out of range, which
    panics in Go, is the result [None] (or [IndexPanic]). *)

Module ihex.

Definition uint32 (z : Z) : Z := z mod 4294967296.
Definition is_uint32 (z : Z) : Prop := 0 <= z < 4294967296.

(** Go's [int64] (and [int] on a 64-bit target), two's complement. *)
Definition int64 (z : Z) : Z :=
  (z + 9223372036854775808) mod 18446744073709551616 - 9223372036854775808.

Inductive error : Type :=
  | EOF                    (* io.EOF *)
  | ErrNegativeOffset      (* errors.New("negative offset") *)
  | ErrUnsupportedWhence.  (* errors.New("whence value unsupported") *)

(** [type Record struct { Offset uint32; Data []byte }] *)
Record Record_ : Type := mkRecord { Offset : Z; Data : list Z }.

(** [type File struct { CS, IP uint16; EIP uint32; Memory RecordList }] *)
Record File : Type := mkFile { CS : Z; IP : Z; EIP : Z; Memory : list Record_ }.

(** [uint32(len(v.Data))] *)
Definition len32 (v : Record_) : Z := uint32 (Z.of_nat (length (Data v))).

(** [offset < v.Offset+uint32(len(v.Data)) && offset+length > v.Offset] *)
Definition overlaps (offset length : Z) (v : Record_) : bool :=
  (offset <? uint32 (Offset v + len32 v)) && (Offset v <? uint32 (offset + length)).

(** [for _, v := range f.Memory { if ... { ret = append(ret, v) } }] *)
Definition GetSegments (f : File) (offset length : Z) : list Record_ :=
  List.filter (overlaps offset length) (Memory f).

(** [r.Data[int(addr-r.Offset)]]; [None] when the index is out of range. *)
Definition dataAt (r : Record_) (addr : Z) : option Z :=
  Data r !! Z.to_nat (uint32 (addr - Offset r)).

(** [s := f.GetSegments(addr, 1)]
    [if len(s) == 0 { return pad }]
    [return s[0].Data[int(addr-s[0].Offset)]] *)
Definition GetByte (f : File) (addr pad : Z) : option Z :=
  match GetSegments f addr 1 with
  | [] => Some pad
  | s0 :: _ => dataAt s0 addr
  end.

(** The body of [GetByte] on a list of records; [GetByte f] is
    [byteIn (Memory f)]. *)
Definition byteIn (m : list Record_) (addr pad : Z) : option Z :=
  match List.filter (overlaps addr 1) m with
  | [] => Some pad
  | s0 :: _ => dataAt s0 addr
  end.

(** The outcomes of [fillByte]: it stored [v] in [*dst] and returned true,
    it returned false, or its index expression panicked. *)
Inductive fill : Type :=
  | Filled (v : Z)
  | Past
  | IndexPanic.

(** [if addr < r.Offset { *dst = pad; return true }]
    [if addr < r.Offset+uint32(len(r.Data)) { *dst = r.Data[int(addr-r.Offset)]; return true }]
    [return false] *)
Definition fillByte (addr : Z) (r : Record_) (pad : Z) : fill :=
  if addr <? Offset r then Filled pad
  else if addr <? uint32 (Offset r + len32 r) then
    match dataAt r addr with
    | Some v => Filled v
    | None => IndexPanic
    end
  else Past.

(** One round of the loop of [Retrieve] for the address [addr]; the list
    [s] is [s[segIndex:]], the segments not yet passed.
    [if segIndex == len(s) { dst[i] = pad; continue }]
    [for !fillByte(addr, &dst[i], s[segIndex], pad) {]
    [  segIndex++; if segIndex == len(s) { dst[i] = pad; break } }]
    The result is the byte stored in [dst[i]] and the segments left. *)
Fixpoint fillFrom (addr : Z) (s : list Record_) (pad : Z) : option (Z * list Record_) :=
  match s with
  | [] => Some (pad, [])
  | r :: s' =>
      match fillByte addr r pad with
      | Filled v => Some (v, s)
      | Past => fillFrom addr s' pad
      | IndexPanic => None
      end
  end.

(** [for i := range dst { ... offset+uint32(i) ... }], from index [i] on for
    [n] more cells; the result is the content of [dst[i:i+n]]. *)
Fixpoint retrieveLoop (offset : Z) (i n : nat) (s : list Record_) (pad : Z)
  : option (list Z) :=
  match n with
  | O => Some []
  | S n' =>
      match fillFrom (uint32 (offset + uint32 (Z.of_nat i))) s pad with
      | Some (v, s') =>
          match retrieveLoop offset (S i) n' s' pad with
          | Some rest => Some (v :: rest)
          | None => None
          end
      | None => None
      end
  end.

(** [func (f File) Retrieve(offset uint32, dst []byte, pad byte)] for a
    [dst] of length [n]: the bytes it leaves in [dst] (it writes every
    cell), or [None] when it panics.
    [s := f.GetSegments(offset, uint32(len(dst)))] *)
Definition Retrieve (f : File) (offset : Z) (n : nat) (pad : Z) : option (list Z) :=
  retrieveLoop offset 0 n (GetSegments f offset (uint32 (Z.of_nat n))) pad.

(** [if len(f.Memory) == 0 { return 0 }]
    [last := f.Memory[len(f.Memory)-1]]
    [return int64(last.Offset + uint32(len(last.Data)))] *)
Definition Size (f : File) : Z :=
  match last (Memory f) with
  | None => 0
  | Some r => int64 (uint32 (Offset r + len32 r))
  end.

(** The overlap check that ends [Parse], run on the sorted records:
    [var prevoffset = int(ret.Memory[0].Offset) + len(ret.Memory[0].Data)]
    [for _, v := range ret.Memory[1:] {]
    [  if int(v.Offset) < prevoffset { return ret, ErrSegmentOverlap }]
    [  prevoffset = int(v.Offset) + len(v.Data) }]
    [true] when [Parse] does not return [ErrSegmentOverlap]. *)
Fixpoint overlapLoop (prevoffset : Z) (m : list Record_) : bool :=
  match m with
  | [] => true
  | v :: m' =>
      if Offset v <? prevoffset then false
      else overlapLoop (Offset v + Z.of_nat (length (Data v))) m'
  end.

Definition overlapFree (m : list Record_) : bool :=
  match m with
  | [] => true
  | r0 :: rest => overlapLoop (Offset r0 + Z.of_nat (length (Data r0))) rest
  end.

(** [type FileReader struct { RetrieveSizer; Offset int64; Pad byte }], the
    embedded interface being a [File]. *)
Record FileReader : Type := mkFileReader {
  fr_File : File;
  fr_Offset : Z;
  fr_Pad : Z
}.

Definition setOffset (fr : FileReader) (o : Z) : FileReader :=
  mkFileReader (fr_File fr) o (fr_Pad fr).

(** [func (fr *FileReader) ReadAt(r []byte, off int64) (int, error)] for a
    buffer of length [n]: the content of the buffer afterwards, the count
    and the error.
    [s := fr.Size()]
    [fr.Retrieve(uint32(off), r, fr.Pad)]
    [if off+int64(len(r)) > s { return int(s - off), io.EOF }]
    [return len(r), nil] *)
Definition ReadAt (fr : FileReader) (n : nat) (off : Z)
  : option (list Z * Z * option error) :=
  let s := Size (fr_File fr) in
  match Retrieve (fr_File fr) (uint32 off) n (fr_Pad fr) with
  | None => None
  | Some bytes =>
      if s <? int64 (off + Z.of_nat n)
      then Some (bytes, int64 (s - off), Some EOF)
      else Some (bytes, Z.of_nat n, None)
  end.

(** [func (fr *FileReader) Read(r []byte) (int, error)]: the reader and the
    buffer afterwards, the count and the error.
    [max := fr.Size() - fr.Offset]
    [if max <= 0 { return 0, io.EOF }]
    [fr.Retrieve(uint32(fr.Offset), r, fr.Pad)]
    [if int64(len(r)) > max { fr.Offset += max; return int(max), io.EOF }]
    [fr.Offset += int64(len(r)); return len(r), nil] *)
Definition Read (fr : FileReader) (r : list Z)
  : option (FileReader * list Z * Z * option error) :=
  let max := int64 (Size (fr_File fr) - fr_Offset fr) in
  if max <=? 0 then Some (fr, r, 0, Some EOF)
  else
    match Retrieve (fr_File fr) (uint32 (fr_Offset fr)) (length r) (fr_Pad fr) with
    | None => None
    | Some bytes =>
        if max <? Z.of_nat (length r)
        then Some (setOffset fr (int64 (fr_Offset fr + max)), bytes, max, Some EOF)
        else Some (setOffset fr (int64 (fr_Offset fr + Z.of_nat (length r))),
                   bytes, Z.of_nat (length r), None)
    end.

(** [func (fr *FileReader) Seek(offset int64, whence int) (int64, error)]
    [switch whence { case 0: fr.Offset = offset; case 1: fr.Offset += offset;]
    [  case 2: fr.Offset = fr.Size() + offset;]
    [  default: return fr.Offset, ErrUnsupportedWhence }]
    [if fr.Offset < 0 { return fr.Offset, ErrNegativeOffset }]
    [return fr.Offset, nil] *)
Definition Seek (fr : FileReader) (offset whence : Z)
  : FileReader * Z * option error :=
  let moved (fr' : FileReader) :=
    if fr_Offset fr' <? 0 then (fr', fr_Offset fr', Some ErrNegativeOffset)
    else (fr', fr_Offset fr', None) in
  if whence =? 0 then moved (setOffset fr offset)
  else if whence =? 1 then moved (setOffset fr (int64 (fr_Offset fr + offset)))
  else if whence =? 2 then moved (setOffset fr (int64 (Size (fr_File fr) + offset)))
  else (fr, fr_Offset fr, Some ErrUnsupportedWhence).

(** The offsets are values of the type [uint32]. *)
Definition offsets_ok (m : list Record_) : Prop :=
  Forall (fun r => is_uint32 (Offset r)) m.

(** A record inside the 32-bit address space, its end included. *)
Definition rec_ok (r : Record_) : Prop :=
  0 <= Offset r /\ Offset r + Z.of_nat (length (Data r)) < 4294967296.

(** The address just behind the record. *)
Definition endOf (r : Record_) : Z := Offset r + Z.of_nat (length (Data r)).

(** The address [addr] lies in the record. *)
Definition contains (r : Record_) (addr : Z) : Prop :=
  Offset r <= addr < endOf r.

(** Every record ends before all the later ones begin. *)
Fixpoint ordered (m : list Record_) : Prop :=
  match m with
  | [] => True
  | r :: m' => Forall (fun r' => endOf r <= Offset r') m' /\ ordered m'
  end.

(** The files the theorems below are about: every record ends below
    [2^32], and the records pass the overlap check of [Parse]. *)
Definition File_ok (f : File) : Prop :=
  Forall rec_ok (Memory f) /\ overlapFree (Memory f) = true.

(** The example file: bytes [02 12 34] at 0 and [A5 22] at 0x10. *)
Definition file1 : File :=
  mkFile 0 0 0 [mkRecord 0 [0x02; 0x12; 0x34]; mkRecord 0x10 [0xA5; 0x22]].

Definition reader1 : FileReader := mkFileReader file1 0 0xFF.

End ihex.

(** * hex and Emul: the record checksum and the map-backed memory *)

Module hex.

(** Go's [int8], two's complement: the conversion [int8(v)] of a byte and
    the wrap-around of [sum += ...]. *)
Definition int8 (z : Z) : Z := (z + 128) mod 256 - 128.

(** [var sum int8 = 0]
    [for _, v := range data { sum += int8(v) }]
    [return sum == 0] *)
Definition compareChecksum (data : list Z) : bool :=
  fold_left (fun sum v => int8 (sum + int8 v)) data 0 =? 0.

(** The sum of the bytes, as an integer. *)
Definition byteSum (data : list Z) : Z := foldr Z.add 0 data.

(** The byte that makes the sum of a record a multiple of 256. *)
Definition checksumByte (data : list Z) : Z := (- byteSum data) mod 256.

End hex.

Module Emul.

(** [type Memory map[uint16]byte] *)
Definition Memory : Type := gmap Z Z.


(** [return ( *m)[addr]]: a key that is not in the map reads as 0. *)
Definition Read (m : Memory) (addr : Z) : Z := default 0 (m !! addr).


End Emul.

(** * Properties *)

(** ** Machine integers and bit masks *)

Lemma uint8_range z : is_uint8 (uint8 z).
Proof. unfold is_uint8, uint8. apply Z.mod_pos_bound. lia. Qed.

Lemma uint16_range z : is_uint16 (uint16 z).
Proof. unfold is_uint16, uint16. apply Z.mod_pos_bound. lia. Qed.

Lemma uint8_id z : is_uint8 z -> uint8 z = z.
Proof. unfold is_uint8, uint8. intros H. apply Z.mod_small. exact H. Qed.

Lemma uint16_id z : is_uint16 z -> uint16 z = z.
Proof. unfold is_uint16, uint16. intros H. apply Z.mod_small. exact H. Qed.

Lemma uint8_land z : uint8 z = Z.land z 0xFF.
Proof. unfold uint8. change 0xFF with (Z.ones 8). rewrite Z.land_ones by lia. reflexivity. Qed.

Lemma uint16_land z : uint16 z = Z.land z 0xFFFF.
Proof. unfold uint16. change 0xFFFF with (Z.ones 16). rewrite Z.land_ones by lia. reflexivity. Qed.

(** Wrapping an index keeps it inside the 256 cells. *)
Lemma uint8_index z : (Z.to_nat (uint8 z) < 256)%nat.
Proof. pose proof (uint8_range z) as H. unfold is_uint8 in H. lia. Qed.

(** Two masks without a common bit: adding is or-ing. *)
Lemma add_disjoint_masks x y m1 m2 :
  Z.land m1 m2 = 0 ->
  Z.land x m1 + Z.land y m2 = Z.lor (Z.land x m1) (Z.land y m2).
Proof.
  intros Hm.
  assert (Hd : Z.land (Z.land x m1) (Z.land y m2) = 0).
  { rewrite <- Z.land_assoc, (Z.land_assoc m1), (Z.land_comm m1 y).
    rewrite <- (Z.land_assoc y), Hm, Z.land_0_r, Z.land_0_r. reflexivity. }
  rewrite Z.add_nocarry_lxor by exact Hd. apply Z.lxor_lor. exact Hd.
Qed.

(** A mask inside 16 bits does not see the wrap-around of its operand. *)
Lemma land_uint16_mask x m :
  Z.land 0xFFFF m = m -> Z.land (uint16 x) m = Z.land x m.
Proof.
  intros Hm. rewrite uint16_land, <- Z.land_assoc, Hm. reflexivity.
Qed.

Lemma uint16_land_mask x m :
  Z.land m 0xFFFF = m -> uint16 (Z.land x m) = Z.land x m.
Proof.
  intros Hm. rewrite uint16_land, <- Z.land_assoc, Hm. reflexivity.
Qed.

(** The two bytes of a 16-bit word put together again. *)
Lemma word_of_bytes w :
  is_uint16 w ->
  Z.lor (uint16 (Z.shiftl (uint8 (Z.shiftr w 8)) 8)) (uint8 w) = w.
Proof.
  unfold is_uint16. intros Hw.
  assert (Hh : is_uint8 (Z.shiftr w 8)).
  { unfold is_uint8. rewrite Z.shiftr_div_pow2 by lia.
    change (2 ^ 8) with 256. split.
    - apply Z.div_pos; lia.
    - apply Z.div_lt_upper_bound; lia. }
  rewrite (uint8_id _ Hh).
  rewrite <- Z.ldiff_ones_r by lia.
  rewrite uint16_id.
  - rewrite uint8_land. change 0xFF with (Z.ones 8). apply Z.lor_ldiff_and.
  - rewrite Z.ldiff_ones_r by lia. unfold is_uint16, is_uint8 in *.
    rewrite Z.shiftl_mul_pow2 by lia. change (2 ^ 8) with 256. lia.
Qed.

(** ** Internal RAM cells *)

Lemma ramGet_ramSet_eq m i v :
  (Z.to_nat i < length m)%nat -> ramGet (ramSet m i v) i = v.
Proof.
  intros Hi. unfold ramGet, ramSet.
  rewrite list_lookup_insert_eq by exact Hi. reflexivity.
Qed.

Lemma ramGet_ramSet_ne m i j v :
  Z.to_nat i <> Z.to_nat j -> ramGet (ramSet m i v) j = ramGet m j.
Proof.
  intros Hij. unfold ramGet, ramSet.
  rewrite list_lookup_insert_ne by exact Hij. reflexivity.
Qed.

Lemma length_ramSet m i v : length (ramSet m i v) = length m.
Proof. unfold ramSet. apply length_insert. Qed.

(** The successor cell is another cell, also across the wrap at 255. *)
Lemma uint8_succ_ne z : Z.to_nat (uint8 (z + 1)) <> Z.to_nat (uint8 (z + 2)).
Proof.
  pose proof (uint8_range (z + 1)) as H1. pose proof (uint8_range (z + 2)) as H2.
  unfold is_uint8, uint8 in *.
  intros Heq. apply Z2Nat.inj in Heq; try lia.
  assert (Hd : (z + 2 - (z + 1)) mod 256 = 0).
  { rewrite Zminus_mod, Heq, Z.sub_diag. reflexivity. }
  replace (z + 2 - (z + 1)) with 1 in Hd by lia. discriminate Hd.
Qed.

(** ** The stack *)

Section Stack.
Variable a : ALU.
Hypothesis Hok : ALU_ok a.

Let sp := StackPtr a.

Lemma PushWord_StackPtr w : StackPtr (PushWord a w) = uint8 (sp + 2).
Proof. reflexivity. Qed.

Lemma PushWord_low w :
  ramGet (InternalRAM (PushWord a w)) (uint8 (sp + 1)) = uint8 w.
Proof.
  unfold PushWord; simpl.
  rewrite ramGet_ramSet_ne by (apply not_eq_sym, uint8_succ_ne).
  apply ramGet_ramSet_eq. rewrite (ok_ram_len a Hok). apply uint8_index.
Qed.

Lemma PushWord_high w :
  ramGet (InternalRAM (PushWord a w)) (uint8 (sp + 2)) = uint8 (Z.shiftr w 8).
Proof.
  unfold PushWord; simpl.
  apply ramGet_ramSet_eq. rewrite length_ramSet, (ok_ram_len a Hok).
  apply uint8_index.
Qed.

Lemma PushWord_frame w :
  PushWord a w = setSP (setRAM a (InternalRAM (PushWord a w))) (uint8 (sp + 2)).
Proof. reflexivity. Qed.

(** Stepping the pointer back over the two bytes. *)
Lemma sp_back_1 : uint8 (uint8 (sp + 2) - 1) = uint8 (sp + 1).
Proof.
  unfold uint8. rewrite Zminus_mod_idemp_l. f_equal. lia.
Qed.

Lemma sp_back_2 : uint8 (uint8 (sp + 2) - 2) = sp.
Proof.
  unfold uint8. rewrite Zminus_mod_idemp_l.
  replace (sp + 2 - 2) with sp by lia.
  apply Z.mod_small. exact (ok_sp a Hok).
Qed.

Lemma PopWord_PushWord_value w :
  is_uint16 w -> fst (PopWord (PushWord a w)) = w.
Proof.
  intros Hw. unfold PopWord. cbn [fst].
  rewrite PushWord_StackPtr, sp_back_1, PushWord_low, PushWord_high.
  apply word_of_bytes. exact Hw.
Qed.

Lemma PopWord_PushWord_StackPtr w :
  StackPtr (snd (PopWord (PushWord a w))) = sp.
Proof.
  unfold PopWord. cbn [snd]. unfold setSP. cbn [StackPtr].
  rewrite PushWord_StackPtr. apply sp_back_2.
Qed.
(** A byte pushed is the byte popped, and the pointer is back. *)
Lemma PopByte_PushByte b :
  fst (PopByte (PushByte a b)) = b /\
  StackPtr (snd (PopByte (PushByte a b))) = sp.
Proof.
  unfold PopByte, PushByte. cbn [fst snd setSP setRAM StackPtr InternalRAM].
  split.
  - apply ramGet_ramSet_eq. rewrite (ok_ram_len a Hok). apply uint8_index.
  - unfold uint8. rewrite Zminus_mod_idemp_l.
    replace (StackPtr a + 1 - 1) with sp by (unfold sp; lia).
    apply Z.mod_small. exact (ok_sp a Hok).
Qed.
End Stack.

(** C5. For every 16-bit word [w] and every ALU state, [PushWord w]
    followed by [PopWord] returns [w] and leaves [StackPtr] at the value it
    had before the push. *)
Theorem PushWord_PopWord_roundtrip (a : ALU) (w : Z) :
  ALU_ok a -> is_uint16 w ->
  fst (PopWord (PushWord a w)) = w /\
  StackPtr (snd (PopWord (PushWord a w))) = StackPtr a.
Proof.
  intros Hok Hw. split.
  - apply PopWord_PushWord_value; assumption.
  - apply PopWord_PushWord_StackPtr; assumption.
Qed.

Lemma ALU0_ok : ALU_ok ALU0.
Proof.
  constructor; cbn [ALU0 InternalRAM StackPtr DataPtr ProgStatus Accum BReg ProgCount].
  - apply length_replicate.
  - apply Forall_replicate. unfold is_uint8. lia.
  - unfold is_uint8. lia.
  - unfold is_uint16. lia.
  - unfold is_uint8. lia.
  - unfold is_uint8. lia.
  - unfold is_uint8. lia.
  - unfold is_uint16. lia.
Qed.

Lemma setSP_ok a sp : ALU_ok a -> is_uint8 sp -> ALU_ok (setSP a sp).
Proof. intros [] Hsp. constructor; cbn; assumption. Qed.

Lemma setPC_ok a pc : ALU_ok a -> is_uint16 pc -> ALU_ok (setPC a pc).
Proof. intros [] Hpc. constructor; cbn; assumption. Qed.

Lemma setAccum_ok a v : ALU_ok a -> is_uint8 v -> ALU_ok (setAccum a v).
Proof. intros [] Hv. constructor; cbn; assumption. Qed.

Lemma setBReg_ok a v : ALU_ok a -> is_uint8 v -> ALU_ok (setBReg a v).
Proof. intros [] Hv. constructor; cbn; assumption. Qed.

Lemma PushWord_PopWord_roundtrip_witness :
  fst (PopWord (PushWord (setSP ALU0 255) 0xBEEF)) = 0xBEEF /\
  StackPtr (snd (PopWord (PushWord (setSP ALU0 255) 0xBEEF))) = 255.
Proof.
  apply (PushWord_PopWord_roundtrip (setSP ALU0 255) 0xBEEF).
  - apply setSP_ok; [exact ALU0_ok | unfold is_uint8; lia].
  - unfold is_uint16; lia.
Defined.

(** ** Page-absolute jumps *)

(** C6. [InstrAJMP] sets the program counter to
    [((PC + 2) & 0xF800) | (rel & 0x7FF)], [PC] being the program counter at
    the start of the two-byte instruction, and changes nothing else; from
    [PC = 0x07FE] with offset [0] the program counter becomes [0x0800]. *)
Theorem InstrAJMP_target (a : ALU) (rel : Z) :
  InstrAJMP a rel =
    setPC a (Z.lor (Z.land (ProgCount a + 2) 0xF800) (Z.land rel 0x7FF)) /\
  ProgCount (InstrAJMP (setPC a 0x07FE) 0x000) = 0x0800.
Proof.
  split; [| reflexivity].
  unfold InstrAJMP. f_equal.
  rewrite land_uint16_mask by reflexivity.
  rewrite add_disjoint_masks by reflexivity.
  rewrite uint16_land, Z.land_lor_distr_l.
  rewrite <- !Z.land_assoc. reflexivity.
Qed.

(** ** Long calls and returns *)

Lemma InstrRET_ProgCount a : ProgCount (InstrRET a) = fst (PopWord a).
Proof. reflexivity. Qed.

Lemma InstrRET_StackPtr a : StackPtr (InstrRET a) = StackPtr (snd (PopWord a)).
Proof. reflexivity. Qed.

(** [PopWord] does not look at the program counter. *)
Lemma PopWord_setPC_value a pc : fst (PopWord (setPC a pc)) = fst (PopWord a).
Proof. reflexivity. Qed.

Lemma PopWord_setPC_StackPtr a pc :
  StackPtr (snd (PopWord (setPC a pc))) = StackPtr (snd (PopWord a)).
Proof. reflexivity. Qed.

(** C7. From program counter [P], [InstrLCALL addr] stores the return
    address [P + 3] (as a 16-bit value) with its low byte in the cell above
    the stack pointer and its high byte in the next one, moves the stack
    pointer up by two and sets the program counter to [addr]; [InstrRET]
    right after it puts the program counter at [P + 3] and the stack
    pointer back where it was before the call. *)
Theorem InstrLCALL_then_RET (a : ALU) (addr : Z) :
  ALU_ok a -> is_uint16 addr ->
  let ret := uint16 (ProgCount a + 3) in
  let a1 := InstrLCALL a addr in
  ramGet (InternalRAM a1) (uint8 (StackPtr a + 1)) = uint8 ret /\
  ramGet (InternalRAM a1) (uint8 (StackPtr a + 2)) = Z.shiftr ret 8 /\
  StackPtr a1 = uint8 (StackPtr a + 2) /\
  ProgCount a1 = addr /\
  ProgCount (InstrRET a1) = ret /\
  StackPtr (InstrRET a1) = StackPtr a.
Proof.
  intros Hok Haddr ret a1.
  assert (Hret : is_uint16 ret) by apply uint16_range.
  assert (Hhigh : uint8 (Z.shiftr ret 8) = Z.shiftr ret 8).
  { apply uint8_id. unfold is_uint8, is_uint16 in *.
    rewrite Z.shiftr_div_pow2 by lia. change (2 ^ 8) with 256. split.
    - apply Z.div_pos; lia.
    - apply Z.div_lt_upper_bound; lia. }
  repeat split.
  - subst a1. unfold InstrLCALL, setPC. cbn [InternalRAM].
    apply PushWord_low. exact Hok.
  - subst a1. unfold InstrLCALL, setPC. cbn [InternalRAM].
    rewrite <- Hhigh. apply PushWord_high. exact Hok.
  - rewrite InstrRET_ProgCount. subst a1. unfold InstrLCALL.
    rewrite PopWord_setPC_value. apply PopWord_PushWord_value; assumption.
  - rewrite InstrRET_StackPtr. subst a1. unfold InstrLCALL.
    rewrite PopWord_setPC_StackPtr. apply PopWord_PushWord_StackPtr; assumption.
Qed.

Lemma call_state_ok : ALU_ok call_state.
Proof.
  apply setSP_ok; [apply setPC_ok; [exact ALU0_ok |] |].
  - unfold is_uint16; lia.
  - unfold is_uint8; lia.
Qed.

Lemma InstrLCALL_then_RET_witness :
  ramGet (InternalRAM (InstrLCALL call_state 0x1234)) 8 = 0x03 /\
  ramGet (InternalRAM (InstrLCALL call_state 0x1234)) 9 = 0x01 /\
  StackPtr (InstrLCALL call_state 0x1234) = 9 /\
  ProgCount (InstrLCALL call_state 0x1234) = 0x1234 /\
  ProgCount (InstrRET (InstrLCALL call_state 0x1234)) = 0x0103 /\
  StackPtr (InstrRET (InstrLCALL call_state 0x1234)) = 7.
Proof.
  apply (InstrLCALL_then_RET call_state 0x1234).
  - exact call_state_ok.
  - unfold is_uint16; lia.
Defined.


(** ** Register banks *)

Lemma bankBase_range psw : 0 <= bankBase psw <= 24.
Proof.
  unfold bankBase.
  pose proof (Z.land_ones (Z.shiftr psw 3) 2) as E.
  change (Z.ones 2) with 0x3 in E. rewrite E by lia.
  pose proof (Z.mod_pos_bound (Z.shiftr psw 3) (2 ^ 2) eq_refl) as H.
  change (2 ^ 2) with 4 in *. lia.
Qed.

(** C1. What the source computes: [regAddr] returns the bank base whatever
    the register index, so the addresses it gives for [R0] and [R7] of one
    bank are equal, and the index is not added: with the status word 0 the
    address given for [R7] is 0, not 7. *)
Theorem regAddr_ignores_index (a : ALU) (n : Z) :
  regAddr a n = bankBase (ProgStatus a) /\
  regAddr a 0 = regAddr a 7 /\
  regAddr ALU0 7 = 0.
Proof.
  assert (H : forall r, regAddr a r = bankBase (ProgStatus a)).
  { intros r. unfold regAddr. fold (bankBase (ProgStatus a)).
    pose proof (bankBase_range (ProgStatus a)) as Hb.
    apply uint8_id. unfold is_uint8. lia. }
  split; [apply H |]. split.
  - rewrite !H. reflexivity.
  - reflexivity.
Qed.

(** ** Multiplication *)

Lemma InstrMUL_product a :
  ALU_ok a -> uint16 (Accum a * BReg a) = Accum a * BReg a.
Proof.
  intros Hok. apply uint16_id.
  pose proof (ok_acc a Hok) as Ha. pose proof (ok_b a Hok) as Hb.
  unfold is_uint8, is_uint16 in *. nia.
Qed.

(** C3. What the source computes: [InstrMUL] puts the low byte of the
    product in the accumulator, clears Carry and sets Overflow exactly when
    the product exceeds 255, but the B register always receives 0 (the
    16-bit product is shifted right by 16), not the high byte. *)
Theorem InstrMUL_loses_high_byte (a : ALU) :
  ALU_ok a ->
  BReg (InstrMUL a) = 0 /\
  Accum (InstrMUL a) = (Accum a * BReg a) mod 256 /\
  Z.testbit (ProgStatus (InstrMUL a)) 7 = false /\
  Z.testbit (ProgStatus (InstrMUL a)) 2 = (255 <? Accum a * BReg a).
Proof.
  intros Hok. unfold InstrMUL.
  rewrite (InstrMUL_product a Hok).
  assert (Hp : 0 <= Accum a * BReg a < 65536).
  { pose proof (ok_acc a Hok) as Ha. pose proof (ok_b a Hok) as Hb.
    unfold is_uint8 in *. nia. }
  assert (Hhi : uint8 (Z.shiftr (Accum a * BReg a) 16) = 0).
  { rewrite Z.shiftr_div_pow2 by lia. change (2 ^ 16) with 65536.
    rewrite Z.div_small by exact Hp. reflexivity. }
  destruct (255 <? Accum a * BReg a);
    cbn [setPSW setAccum setBReg BReg Accum ProgStatus];
    unfold andnot; rewrite Hhi;
    rewrite ?Z.lor_spec, ?Z.ldiff_spec; cbn [Z.testbit OverFlowBit CarryBit];
    repeat split;
    rewrite ?Bool.andb_false_r, ?Bool.orb_true_r; reflexivity.
Qed.

Lemma mul_state_ok : ALU_ok mul_state.
Proof.
  apply setBReg_ok; [apply setAccum_ok; [exact ALU0_ok |] |];
    unfold is_uint8; lia.
Qed.

Lemma InstrMUL_loses_high_byte_witness :
  BReg (InstrMUL mul_state) = 0 /\
  Accum (InstrMUL mul_state) = 0x40 /\
  Z.testbit (ProgStatus (InstrMUL mul_state)) 7 = false /\
  Z.testbit (ProgStatus (InstrMUL mul_state)) 2 = true.
Proof.
  apply (InstrMUL_loses_high_byte mul_state). exact mul_state_ok.
Defined.

(** ** The decode table *)

Lemma decodeTable_length : length decodeTable = 256%nat.
Proof. reflexivity. Qed.

Lemma decodeTable_checked : forallb index_ok (seq 0 256) = true.
Proof. vm_compute. reflexivity. Qed.

Lemma OpCode_eqb_eq x y : OpCode_eqb x y = true <-> x = y.
Proof.
  split.
  - destruct x, y; simpl; intros H; try reflexivity; discriminate H.
  - intros ->. destruct y; reflexivity.
Qed.

Lemma index_ok_lt (i : nat) : (i < 256)%nat -> index_ok i = true.
Proof.
  intros Hi. pose proof decodeTable_checked as Hall.
  rewrite forallb_forall in Hall. apply Hall.
  apply in_seq. lia.
Qed.

(** C8. Every opcode byte has an entry in the table, the length of the
    entry is 1, 2 or 3, and the entry's mnemonic is the sentinel [ERR]
    exactly for the byte [0xA5]. *)
Theorem decodeTable_total (b : Z) :
  0 <= b < 256 ->
  exists d : decoded,
    decodeTable !! Z.to_nat b = Some d /\
    tableAt b = d /\
    (len d = 1 \/ len d = 2 \/ len d = 3) /\
    (op d = ERR <-> b = 0xA5).
Proof.
  intros Hb.
  assert (Hi : (Z.to_nat b < 256)%nat) by lia.
  pose proof (index_ok_lt _ Hi) as Hok.
  unfold index_ok in Hok. unfold tableAt.
  destruct (decodeTable !! Z.to_nat b) as [d |]; [| discriminate Hok].
  exists d. split; [reflexivity |]. split; [reflexivity |].
  unfold entry_ok in Hok.
  apply andb_prop in Hok. destruct Hok as [Hlen Hop].
  split.
  - apply Bool.orb_prop in Hlen. destruct Hlen as [Hlen | H3].
    + apply Bool.orb_prop in Hlen. destruct Hlen as [H1 | H2].
      * left. apply Z.eqb_eq. exact H1.
      * right; left. apply Z.eqb_eq. exact H2.
    + right; right. apply Z.eqb_eq. exact H3.
  - apply Bool.eqb_prop in Hop. rewrite <- OpCode_eqb_eq, Hop.
    rewrite Nat.eqb_eq. lia.
Qed.

Lemma decodeTable_total_witness :
  exists d : decoded,
    decodeTable !! Z.to_nat 0xA5 = Some d /\
    tableAt 0xA5 = d /\
    (len d = 1 \/ len d = 2 \/ len d = 3) /\
    (op d = ERR <-> 0xA5 = 0xA5).
Proof. apply (decodeTable_total 0xA5). lia. Defined.

(** ** Instruction fetch *)

(** The fetch never reports an error, whatever the memory answers. *)
Lemma ReadInstruction_no_error (c : CodeMemory) (offset : Z) :
  snd (ReadInstruction c offset) = None.
Proof. reflexivity. Qed.

(** A read into the empty slice [b[1:1]] leaves the buffer as it is. *)
Lemma readInto_empty (c : CodeMemory) (b : list Z) (lo : nat) (off : Z) :
  readInto c b lo lo off = b.
Proof.
  unfold readInto. rewrite Nat.sub_diag, take_0. cbn [length app].
  rewrite Nat.add_0_r. apply take_drop.
Qed.

(** The operand byte of a two-byte instruction is never read. *)
Lemma ReadInstruction_two_bytes (c : CodeMemory) (offset : Z) :
  len (tableAt (default 0 (readInto c (replicate 3 0) 0 1 offset !! 0%nat))) = 2 ->
  snd (fst (ReadInstruction c offset))
  = take 2 (readInto c (replicate 3 0) 0 1 offset).
Proof.
  intros H2. unfold ReadInstruction. cbn [fst snd]. rewrite H2.
  change (1 <? 2) with true. cbv iota.
  change (Z.to_nat (uint8 (2 - 1))) with 1%nat.
  rewrite readInto_empty. reflexivity.
Qed.

(** C2. What the source computes: the fetch discards the results of its
    reads and always returns a nil error; the operand read is issued at
    [offset] (not [offset + 1]) into the slice [b[1:len-1]], so a three-byte
    instruction gets the opcode byte again as its first operand and 0 as
    its second, a two-byte instruction gets 0 as its operand, and a read
    past the end of the memory yields the bytes of a [NOP]. *)
Theorem ReadInstruction_drops_errors_and_operands :
  (forall (c : CodeMemory) (offset : Z), snd (ReadInstruction c offset) = None) /\
  ReadInstruction ljmp_mem 0 = (LJMP, [0x02; 0x02; 0x00], None) /\
  ReadInstruction mov_mem 0 = (MOV, [0x74; 0x00], None) /\
  ReadAt empty_mem 1 0 = ([], Some EOF) /\
  ReadInstruction empty_mem 0 = (NOP, [0x00], None).
Proof.
  split; [exact ReadInstruction_no_error |].
  repeat split; reflexivity.
Qed.

(** ** Dispatch *)


(** C4. What the source computes: the opcode [0xA5] is fetched as the
    mnemonic [ERR] without an error, and [DecodeInstruction] answers it with
    the nil operation; [ErrUnknownOpCode] is returned nowhere. *)
Theorem DecodeInstruction_ERR_nil (data : list Z) :
  tableAt 0xA5 = D 1 ERR /\
  ReadInstruction a5_mem 0 = (ERR, [0xA5], None) /\
  DecodeInstruction ERR data = None.
Proof. repeat split. Qed.

(** ** Addition *)

(** C9. What the source computes: [InstrADDLit] has an empty body, so the
    state after it is the state before it; with accumulator [0xFF] and the
    literal [0x01] the accumulator stays [0xFF] and no flag is set. *)
Theorem InstrADDLit_unchanged (a : ALU) (literal : Z) :
  InstrADDLit a literal = a /\
  Accum (InstrADDLit add_state 0x01) = 0xFF /\
  ProgStatus (InstrADDLit add_state 0x01) = 0.
Proof. repeat split. Qed.

(** ** The driver *)

(** C10. [Step] returns nil and the CPU it was called on, unchanged: it
    fetches nothing, dispatches nothing and does not move the program
    counter. *)
Theorem Step_does_nothing (c : CPU) :
  Step c = (c, None) /\
  snd (Step c) = None /\
  cpu_ALU (fst (Step c)) = cpu_ALU c.
Proof. repeat split. Qed.

(** * Further properties of the register file *)

Lemma uint8_add_idemp z k : uint8 (uint8 z + k) = uint8 (z + k).
Proof. unfold uint8. apply Zplus_mod_idemp_l. Qed.

Lemma uint8_sub_idemp z k : uint8 (uint8 z - k) = uint8 (z - k).
Proof. unfold uint8. apply Zminus_mod_idemp_l. Qed.

(** Cells at different distances above a pointer are different cells, also
    across the wrap at 255. *)
Lemma uint8_add_ne z i j : 0 < j - i < 256 -> uint8 (z + i) <> uint8 (z + j).
Proof.
  unfold uint8. intros Hij Heq.
  assert (Hd : (z + j - (z + i)) mod 256 = 0).
  { rewrite Zminus_mod, Heq, Z.sub_diag. reflexivity. }
  replace (z + j - (z + i)) with (j - i) in Hd by lia.
  rewrite Z.mod_small in Hd by lia. lia.
Qed.

Lemma to_nat_uint8_ne x y : uint8 x <> uint8 y -> Z.to_nat (uint8 x) <> Z.to_nat (uint8 y).
Proof.
  pose proof (uint8_range x) as Hx. pose proof (uint8_range y) as Hy.
  unfold is_uint8 in *. lia.
Qed.

Lemma to_nat_byte_ne x y : is_uint8 x -> is_uint8 y -> x <> y -> Z.to_nat x <> Z.to_nat y.
Proof. unfold is_uint8. lia. Qed.

Lemma byte_index x : is_uint8 x -> (Z.to_nat x < 256)%nat.
Proof. unfold is_uint8. lia. Qed.

Lemma ramSet_ok m i v :
  Forall is_uint8 m -> is_uint8 v -> Forall is_uint8 (ramSet m i v).
Proof.
  intros Hm Hv. unfold ramSet.
  destruct (decide (Z.to_nat i < length m)%nat) as [Hi | Hi].
  - apply Forall_insert; assumption.
  - rewrite list_insert_ge by lia. exact Hm.
Qed.

Lemma PushWord_ok a w : ALU_ok a -> ALU_ok (PushWord a w).
Proof.
  intros [Hl Hr Hsp Hd Hp Ha Hb Hpc]. unfold PushWord.
  constructor; cbn [setSP setRAM InternalRAM StackPtr DataPtr ProgStatus Accum BReg ProgCount];
    try assumption.
  - rewrite !length_ramSet. exact Hl.
  - apply ramSet_ok; [apply ramSet_ok |]; try assumption; apply uint8_range.
  - apply uint8_range.
Qed.

Lemma InstrLCALL_ok a addr : ALU_ok a -> is_uint16 addr -> ALU_ok (InstrLCALL a addr).
Proof.
  intros Hok Haddr. unfold InstrLCALL. apply setPC_ok; [| exact Haddr].
  apply PushWord_ok. exact Hok.
Qed.

(** ** Bytes on the stack *)

(** X1. A byte pushed with [PushByte] is the byte [PopByte] returns, the
    stack pointer is back at its value before the push, and the push wrote
    no cell but the one above the old stack pointer. *)
Theorem PushByte_PopByte_roundtrip (a : ALU) (b j : Z) :
  ALU_ok a -> is_uint8 j -> j <> uint8 (StackPtr a + 1) ->
  fst (PopByte (PushByte a b)) = b /\
  StackPtr (snd (PopByte (PushByte a b))) = StackPtr a /\
  ramGet (InternalRAM (PushByte a b)) j = ramGet (InternalRAM a) j.
Proof.
  intros Hok Hj Hne.
  destruct (PopByte_PushByte a Hok b) as [Hv Hs].
  split; [exact Hv |]. split; [exact Hs |].
  unfold PushByte. cbn [setSP setRAM InternalRAM StackPtr].
  apply ramGet_ramSet_ne. apply to_nat_byte_ne.
  - apply uint8_range.
  - exact Hj.
  - intros Heq. apply Hne. symmetry. exact Heq.
Qed.

Lemma PushByte_PopByte_roundtrip_witness :
  fst (PopByte (PushByte call_state 0x5A)) = 0x5A /\
  StackPtr (snd (PopByte (PushByte call_state 0x5A))) = StackPtr call_state /\
  ramGet (InternalRAM (PushByte call_state 0x5A)) 9
  = ramGet (InternalRAM call_state) 9.
Proof.
  apply (PushByte_PopByte_roundtrip call_state 0x5A 9).
  - exact call_state_ok.
  - unfold is_uint8; lia.
  - vm_compute. discriminate.
Defined.

(** X2. Pushing a word is pushing its low byte and then its high byte;
    popping a word is popping the high byte and then the low byte. *)
Theorem word_ops_are_byte_ops (a : ALU) (w : Z) :
  PushWord a w = PushByte (PushByte a (uint8 w)) (uint8 (Z.shiftr w 8)) /\
  PopWord a =
    (Z.lor (uint16 (Z.shiftl (fst (PopByte a)) 8)) (fst (PopByte (snd (PopByte a)))),
     snd (PopByte (snd (PopByte a)))).
Proof.
  split.
  - unfold PushWord, PushByte, setSP, setRAM.
    cbn [InternalRAM StackPtr DataPtr ProgStatus Accum BReg ProgCount].
    rewrite uint8_add_idemp.
    replace (StackPtr a + 1 + 1) with (StackPtr a + 2) by lia. reflexivity.
  - unfold PopWord, PopByte, setSP.
    cbn [fst snd InternalRAM StackPtr DataPtr ProgStatus Accum BReg ProgCount].
    rewrite uint8_sub_idemp.
    replace (StackPtr a - 1 - 1) with (StackPtr a - 2) by lia. reflexivity.
Qed.

Lemma PushWord_other_cell (a : ALU) (w j : Z) :
  is_uint8 j ->
  j <> uint8 (StackPtr a + 1) -> j <> uint8 (StackPtr a + 2) ->
  ramGet (InternalRAM (PushWord a w)) j = ramGet (InternalRAM a) j.
Proof.
  intros Hj H1 H2.
  unfold PushWord. cbn [setSP setRAM InternalRAM StackPtr].
  rewrite ramGet_ramSet_ne.
  - apply ramGet_ramSet_ne. apply to_nat_byte_ne; [apply uint8_range | exact Hj |].
    intros Heq. apply H1. symmetry. exact Heq.
  - apply to_nat_byte_ne; [apply uint8_range | exact Hj |].
    intros Heq. apply H2. symmetry. exact Heq.
Qed.

(** X3. [PushWord] writes the two cells above the stack pointer and no
    other cell, and it changes no register but the stack pointer. *)
Theorem PushWord_frame_cells (a : ALU) (w j : Z) :
  ALU_ok a -> is_uint8 j ->
  j <> uint8 (StackPtr a + 1) -> j <> uint8 (StackPtr a + 2) ->
  ramGet (InternalRAM (PushWord a w)) j = ramGet (InternalRAM a) j /\
  length (InternalRAM (PushWord a w)) = 256%nat /\
  (DataPtr (PushWord a w), ProgStatus (PushWord a w), Accum (PushWord a w),
   BReg (PushWord a w), ProgCount (PushWord a w))
  = (DataPtr a, ProgStatus a, Accum a, BReg a, ProgCount a).
Proof.
  intros Hok Hj H1 H2. split; [| split].
  - apply PushWord_other_cell; assumption.
  - exact (ok_ram_len _ (PushWord_ok a w Hok)).
  - reflexivity.
Qed.

Lemma PushWord_frame_cells_witness :
  ramGet (InternalRAM (PushWord call_state 0xBEEF)) 7
  = ramGet (InternalRAM call_state) 7 /\
  length (InternalRAM (PushWord call_state 0xBEEF)) = 256%nat /\
  (DataPtr (PushWord call_state 0xBEEF), ProgStatus (PushWord call_state 0xBEEF),
   Accum (PushWord call_state 0xBEEF), BReg (PushWord call_state 0xBEEF),
   ProgCount (PushWord call_state 0xBEEF))
  = (DataPtr call_state, ProgStatus call_state, Accum call_state,
     BReg call_state, ProgCount call_state).
Proof.
  apply (PushWord_frame_cells call_state 0xBEEF 7).
  - exact call_state_ok.
  - unfold is_uint8; lia.
  - vm_compute. discriminate.
  - vm_compute. discriminate.
Defined.

(** ** Calls and returns *)

(** What [PopWord] returns when the two cells under the stack pointer hold
    the bytes of [w]. *)
Lemma PopWord_reads (s : ALU) (w : Z) :
  is_uint16 w ->
  ramGet (InternalRAM s) (StackPtr s) = uint8 (Z.shiftr w 8) ->
  ramGet (InternalRAM s) (uint8 (StackPtr s - 1)) = uint8 w ->
  fst (PopWord s) = w.
Proof.
  intros Hw Hhi Hlo. unfold PopWord. cbn [fst].
  rewrite Hhi, Hlo. apply word_of_bytes. exact Hw.
Qed.

Lemma InstrRET_InternalRAM s : InternalRAM (InstrRET s) = InternalRAM s.
Proof. reflexivity. Qed.

Lemma InstrRET_StackPtr_back s : StackPtr (InstrRET s) = uint8 (StackPtr s - 2).
Proof. reflexivity. Qed.

Lemma InstrLCALL_StackPtr a addr : StackPtr (InstrLCALL a addr) = uint8 (StackPtr a + 2).
Proof. reflexivity. Qed.

Lemma InstrLCALL_InternalRAM a addr :
  InternalRAM (InstrLCALL a addr) = InternalRAM (PushWord a (uint16 (ProgCount a + 3))).
Proof. reflexivity. Qed.

(** The target of a page-absolute transfer, the sum of the source written
    as the bitwise or of its two parts. *)
Lemma page_target pc rel :
  uint16 (Z.land (uint16 (pc + 2)) 0xF800 + Z.land rel 0x7FF)
  = Z.lor (Z.land (pc + 2) 0xF800) (Z.land rel 0x7FF).
Proof.
  rewrite land_uint16_mask by reflexivity.
  rewrite add_disjoint_masks by reflexivity.
  rewrite uint16_land, Z.land_lor_distr_l.
  rewrite <- !Z.land_assoc. reflexivity.
Qed.

(** X4. Calls nest: after [InstrLCALL x] and then [InstrLCALL y], the first
    [InstrRET] returns behind the second call (to [x + 3]) and the second
    [InstrRET] returns behind the first one, with the stack pointer back at
    its value before both calls; the inner call does not overwrite the
    outer return address, also when the stack pointer wraps at 255. *)
Theorem nested_LCALL_RET (a : ALU) (x y : Z) :
  ALU_ok a -> is_uint16 x -> is_uint16 y ->
  ProgCount (InstrRET (InstrLCALL (InstrLCALL a x) y)) = uint16 (x + 3) /\
  ProgCount (InstrRET (InstrRET (InstrLCALL (InstrLCALL a x) y)))
  = uint16 (ProgCount a + 3) /\
  StackPtr (InstrRET (InstrRET (InstrLCALL (InstrLCALL a x) y))) = StackPtr a.
Proof.
  intros Hok Hx Hy.
  pose proof (InstrLCALL_ok a x Hok Hx) as Hok1.
  set (a1 := InstrLCALL a x) in *.
  assert (Hsp1 : StackPtr a1 = uint8 (StackPtr a + 2)) by reflexivity.
  assert (Hpc1 : ProgCount a1 = x) by reflexivity.
  assert (Hsp3 : StackPtr (InstrRET (InstrLCALL a1 y)) = StackPtr a1).
  { rewrite InstrRET_StackPtr. unfold InstrLCALL at 1.
    rewrite PopWord_setPC_StackPtr. apply PopWord_PushWord_StackPtr. exact Hok1. }
  split; [| split].
  - rewrite InstrRET_ProgCount. unfold InstrLCALL at 1.
    rewrite PopWord_setPC_value, Hpc1.
    apply PopWord_PushWord_value; [exact Hok1 | apply uint16_range].
  - rewrite InstrRET_ProgCount. apply PopWord_reads.
    + apply uint16_range.
    + rewrite Hsp3, InstrRET_InternalRAM, InstrLCALL_InternalRAM, Hsp1.
      rewrite (PushWord_other_cell a1 (uint16 (ProgCount a1 + 3))
                 (uint8 (StackPtr a + 2)) (uint8_range _)).
      * subst a1. rewrite InstrLCALL_InternalRAM.
        apply PushWord_high. exact Hok.
      * rewrite Hsp1, uint8_add_idemp.
        replace (StackPtr a + 2 + 1) with (StackPtr a + 3) by lia.
        apply uint8_add_ne. lia.
      * rewrite Hsp1, uint8_add_idemp.
        replace (StackPtr a + 2 + 2) with (StackPtr a + 4) by lia.
        apply uint8_add_ne. lia.
    + rewrite Hsp3, InstrRET_InternalRAM, InstrLCALL_InternalRAM, Hsp1.
      rewrite uint8_sub_idemp.
      replace (StackPtr a + 2 - 1) with (StackPtr a + 1) by lia.
      rewrite (PushWord_other_cell a1 (uint16 (ProgCount a1 + 3))
                 (uint8 (StackPtr a + 1)) (uint8_range _)).
      * subst a1. rewrite InstrLCALL_InternalRAM.
        apply PushWord_low. exact Hok.
      * rewrite Hsp1, uint8_add_idemp.
        replace (StackPtr a + 2 + 1) with (StackPtr a + 3) by lia.
        apply uint8_add_ne. lia.
      * rewrite Hsp1, uint8_add_idemp.
        replace (StackPtr a + 2 + 2) with (StackPtr a + 4) by lia.
        apply uint8_add_ne. lia.
  - rewrite InstrRET_StackPtr_back, Hsp3, Hsp1. apply sp_back_2. exact Hok.
Qed.

Lemma nested_LCALL_RET_witness :
  ProgCount (InstrRET (InstrLCALL (InstrLCALL call_state 0x1234) 0x2000))
  = uint16 (0x1234 + 3) /\
  ProgCount (InstrRET (InstrRET (InstrLCALL (InstrLCALL call_state 0x1234) 0x2000)))
  = uint16 (ProgCount call_state + 3) /\
  StackPtr (InstrRET (InstrRET (InstrLCALL (InstrLCALL call_state 0x1234) 0x2000)))
  = StackPtr call_state.
Proof.
  apply (nested_LCALL_RET call_state 0x1234 0x2000).
  - exact call_state_ok.
  - unfold is_uint16; lia.
  - unfold is_uint16; lia.
Defined.

(** X5. [InstrACALL] sets the program counter to
    [((PC + 2) & 0xF800) | (rel & 0x7FF)], an address in the 2 KiB page of
    the instruction after the call, and [InstrRET] right after it returns
    to [PC + 2] with the stack pointer back at its value before the call. *)
Theorem InstrACALL_then_RET (a : ALU) (rel : Z) :
  ALU_ok a ->
  ProgCount (InstrACALL a rel)
  = Z.lor (Z.land (ProgCount a + 2) 0xF800) (Z.land rel 0x7FF) /\
  Z.land (ProgCount (InstrACALL a rel)) 0xF800 = Z.land (ProgCount a + 2) 0xF800 /\
  ProgCount (InstrRET (InstrACALL a rel)) = uint16 (ProgCount a + 2) /\
  StackPtr (InstrRET (InstrACALL a rel)) = StackPtr a.
Proof.
  intros Hok.
  assert (Hpc : ProgCount (InstrACALL a rel)
                = Z.lor (Z.land (ProgCount a + 2) 0xF800) (Z.land rel 0x7FF)).
  { unfold InstrACALL. cbn [setPC ProgCount]. apply page_target. }
  split; [exact Hpc |]. split; [| split].
  - rewrite Hpc, Z.land_lor_distr_l, <- !Z.land_assoc.
    change (Z.land 0xF800 0xF800) with 0xF800.
    change (Z.land 0x7FF 0xF800) with 0.
    rewrite Z.land_0_r, Z.lor_0_r. reflexivity.
  - rewrite InstrRET_ProgCount. unfold InstrACALL.
    rewrite PopWord_setPC_value.
    apply PopWord_PushWord_value; [exact Hok | apply uint16_range].
  - rewrite InstrRET_StackPtr. unfold InstrACALL.
    rewrite PopWord_setPC_StackPtr. apply PopWord_PushWord_StackPtr. exact Hok.
Qed.

Lemma InstrACALL_then_RET_witness :
  ProgCount (InstrACALL call_state 0x7AB)
  = Z.lor (Z.land (ProgCount call_state + 2) 0xF800) (Z.land 0x7AB 0x7FF) /\
  Z.land (ProgCount (InstrACALL call_state 0x7AB)) 0xF800
  = Z.land (ProgCount call_state + 2) 0xF800 /\
  ProgCount (InstrRET (InstrACALL call_state 0x7AB)) = uint16 (ProgCount call_state + 2) /\
  StackPtr (InstrRET (InstrACALL call_state 0x7AB)) = StackPtr call_state.
Proof. apply (InstrACALL_then_RET call_state 0x7AB). exact call_state_ok. Defined.

(** ** Nibble swap *)

(** X6. [InstrSWAP] combines the two shifted halves with [&], so whatever
    the accumulator holds it is 0 afterwards; nothing else changes. *)
Theorem InstrSWAP_clears_accumulator (a : ALU) :
  is_uint8 (Accum a) -> InstrSWAP a = setAccum a 0.
Proof.
  unfold is_uint8. intros Ha. unfold InstrSWAP. f_equal.
  apply Z.bits_inj'. intros n Hn.
  rewrite Z.land_spec, Z.bits_0, Z.shiftr_spec by exact Hn.
  destruct (Z.ltb_spec n 4) as [Hlt | Hge].
  - rewrite uint8_land, Z.land_spec, Z.shiftl_spec_low by exact Hlt.
    rewrite Bool.andb_false_l. apply Bool.andb_false_r.
  - assert (Hhigh : Z.testbit (Accum a) (n + 4) = false).
    { rewrite <- (Z.mod_small (Accum a) (2 ^ 8)) by (change (2 ^ 8) with 256; lia).
      apply Z.mod_pow2_bits_high. lia. }
    rewrite Hhigh. reflexivity.
Qed.

Lemma InstrSWAP_clears_accumulator_witness :
  InstrSWAP mul_state = setAccum mul_state 0.
Proof.
  apply (InstrSWAP_clears_accumulator mul_state).
  exact (ok_acc _ mul_state_ok).
Defined.

(** ** Exchanges *)

Lemma ramSet_ramSet m i v v' : ramSet (ramSet m i v) i v' = ramSet m i v'.
Proof. unfold ramSet. apply list_insert_insert_eq. Qed.

Lemma ramSet_same m i :
  (Z.to_nat i < length m)%nat -> ramSet m i (ramGet m i) = m.
Proof.
  intros Hi. unfold ramSet, ramGet.
  destruct (lookup_lt_is_Some_2 m (Z.to_nat i) Hi) as [v Hv].
  rewrite Hv. cbn [default]. apply list_insert_id. exact Hv.
Qed.

(** X7. [InstrXCHImmed loc] puts the cell [loc] in the accumulator and the
    old accumulator in the cell [loc], leaves every other cell as it was,
    and a second exchange with the same cell gives the first state back. *)
Theorem InstrXCHImmed_exchanges (a : ALU) (loc j : Z) :
  ALU_ok a -> is_uint8 loc -> is_uint8 j -> j <> loc ->
  Accum (InstrXCHImmed a loc) = ramGet (InternalRAM a) loc /\
  ramGet (InternalRAM (InstrXCHImmed a loc)) loc = Accum a /\
  ramGet (InternalRAM (InstrXCHImmed a loc)) j = ramGet (InternalRAM a) j /\
  InstrXCHImmed (InstrXCHImmed a loc) loc = a.
Proof.
  intros Hok Hloc Hj Hne.
  assert (Hi : (Z.to_nat loc < length (InternalRAM a))%nat).
  { rewrite (ok_ram_len a Hok). apply byte_index. exact Hloc. }
  unfold InstrXCHImmed, xchAt.
  cbn [setRAM setAccum InternalRAM StackPtr DataPtr ProgStatus Accum BReg ProgCount].
  split; [reflexivity |]. split; [| split].
  - apply ramGet_ramSet_eq. exact Hi.
  - apply ramGet_ramSet_ne. apply to_nat_byte_ne; [exact Hloc | exact Hj |].
    intros Heq. apply Hne. symmetry. exact Heq.
  - rewrite ramGet_ramSet_eq by exact Hi.
    rewrite ramSet_ramSet, ramSet_same by exact Hi.
    destruct a; reflexivity.
Qed.

Lemma InstrXCHImmed_exchanges_witness :
  Accum (InstrXCHImmed mul_state 0x30) = ramGet (InternalRAM mul_state) 0x30 /\
  ramGet (InternalRAM (InstrXCHImmed mul_state 0x30)) 0x30 = Accum mul_state /\
  ramGet (InternalRAM (InstrXCHImmed mul_state 0x30)) 0x31
  = ramGet (InternalRAM mul_state) 0x31 /\
  InstrXCHImmed (InstrXCHImmed mul_state 0x30) 0x30 = mul_state.
Proof.
  apply (InstrXCHImmed_exchanges mul_state 0x30 0x31).
  - exact mul_state_ok.
  - unfold is_uint8; lia.
  - unfold is_uint8; lia.
  - discriminate.
Defined.

Lemma regAddr_bankBase (a : ALU) (r : Z) : regAddr a r = bankBase (ProgStatus a).
Proof.
  unfold regAddr. fold (bankBase (ProgStatus a)).
  pose proof (bankBase_range (ProgStatus a)) as Hb.
  apply uint8_id. unfold is_uint8. lia.
Qed.

(** X8. The register exchanges do not depend on the register they name:
    [InstrXCHDir reg] exchanges the accumulator with the first cell of the
    active bank for every [reg], and [InstrXCHInd] uses the address held in
    that same cell whether [R1] is set or not. *)
Theorem register_exchanges_ignore_register (a : ALU) (reg : Z) (R1 : bool) :
  InstrXCHDir a reg = InstrXCHImmed a (bankBase (ProgStatus a)) /\
  InstrXCHInd a R1
  = InstrXCHImmed a (ramGet (InternalRAM a) (bankBase (ProgStatus a))).
Proof.
  unfold InstrXCHDir, InstrXCHInd, InstrXCHImmed. split.
  - rewrite regAddr_bankBase. reflexivity.
  - destruct R1; rewrite regAddr_bankBase; reflexivity.
Qed.

(** ** PUSH and POP *)



(** * Further properties of fetch and decode *)

Lemma tableAt_len (b : Z) :
  len (tableAt b) = 0 \/ len (tableAt b) = 1 \/
  len (tableAt b) = 2 \/ len (tableAt b) = 3.
Proof.
  unfold tableAt.
  destruct (decide (Z.to_nat b < 256)%nat) as [Hi | Hi].
  - pose proof (index_ok_lt _ Hi) as Hok. unfold index_ok in Hok.
    destruct (decodeTable !! Z.to_nat b) as [d |]; [| discriminate Hok].
    cbn [default]. unfold entry_ok in Hok.
    apply andb_prop in Hok. destruct Hok as [Hlen _].
    apply Bool.orb_prop in Hlen. destruct Hlen as [Hlen | H3].
    + apply Bool.orb_prop in Hlen. destruct Hlen as [H1 | H2].
      * right; left. apply Z.eqb_eq. exact H1.
      * right; right; left. apply Z.eqb_eq. exact H2.
    + right; right; right. apply Z.eqb_eq. exact H3.
  - rewrite lookup_ge_None_2 by (rewrite decodeTable_length; lia).
    left. reflexivity.
Qed.

(** The buffer after the opcode read, when the memory delivers one byte. *)
Lemma readInto_opcode (c : CodeMemory) (off x : Z) (e : option error) :
  ReadAt c 1 off = ([x], e) ->
  readInto c (replicate 3 0) 0 1 off = [x; 0; 0].
Proof. intros H. unfold readInto. cbn [Nat.sub]. rewrite H. reflexivity. Qed.

(** X10. When the memory delivers the byte [x] for the one-byte read at
    [offset], [ReadInstruction] returns the mnemonic and as many bytes as
    the table gives for [x], with a nil error: the byte [x] alone for a
    one-byte instruction, [x] and 0 for a two-byte one, and [x], [x] again
    and 0 for a three-byte one.  No operand byte comes from [offset + 1] or
    [offset + 2]. *)
Theorem ReadInstruction_shape (c : CodeMemory) (offset x : Z) (e : option error) :
  ReadAt c 1 offset = ([x], e) ->
  ReadInstruction c offset
  = (op (tableAt x),
     take (Z.to_nat (len (tableAt x)))
          [x; if len (tableAt x) =? 3 then x else 0; 0],
     None).
Proof.
  intros Hread. unfold ReadInstruction.
  rewrite (readInto_opcode c offset x e Hread).
  change (default 0 ([x; 0; 0] !! 0%nat)) with x.
  destruct (tableAt_len x) as [H | [H | [H | H]]]; rewrite H.
  - reflexivity.
  - reflexivity.
  - change (1 <? 2) with true. cbv iota.
    change (Z.to_nat (uint8 (2 - 1))) with 1%nat.
    rewrite readInto_empty. reflexivity.
  - change (1 <? 3) with true. cbv iota.
    change (Z.to_nat (uint8 (3 - 1))) with 2%nat.
    unfold readInto. cbn [Nat.sub]. rewrite Hread. reflexivity.
Qed.

Lemma ReadInstruction_shape_witness :
  ReadInstruction ljmp_mem 0
  = (op (tableAt 0x02),
     take (Z.to_nat (len (tableAt 0x02)))
          [0x02; if len (tableAt 0x02) =? 3 then 0x02 else 0; 0],
     None).
Proof. apply (ReadInstruction_shape ljmp_mem 0 0x02 None). reflexivity. Defined.

(** X11. When the one-byte read at [offset] delivers nothing, whatever
    error the memory reports, [ReadInstruction] returns the mnemonic [NOP]
    with the single byte 0 and a nil error. *)
Theorem ReadInstruction_short_read (c : CodeMemory) (offset : Z) (e : option error) :
  ReadAt c 1 offset = ([], e) ->
  ReadInstruction c offset = (NOP, [0], None).
Proof.
  intros Hread. unfold ReadInstruction.
  assert (Hb : readInto c (replicate 3 0) 0 1 offset = [0; 0; 0]).
  { unfold readInto. cbn [Nat.sub]. rewrite Hread. reflexivity. }
  rewrite Hb. reflexivity.
Qed.

Lemma ReadInstruction_short_read_witness :
  ReadInstruction ljmp_mem 3 = (NOP, [0], None).
Proof. apply (ReadInstruction_short_read ljmp_mem 3 (Some EOF)). reflexivity. Defined.

(** X12. [ReadInstruction] uses of the memory only the one-byte read at
    [offset]: two memories that answer this read alike give the same
    instruction, whatever they hold elsewhere and whatever their sizes. *)
Theorem ReadInstruction_reads_one_byte (c c' : CodeMemory) (offset : Z) :
  ReadAt c 1 offset = ReadAt c' 1 offset ->
  ReadInstruction c offset = ReadInstruction c' offset.
Proof.
  intros Hread. unfold ReadInstruction.
  assert (Hb : readInto c (replicate 3 0) 0 1 offset
               = readInto c' (replicate 3 0) 0 1 offset).
  { unfold readInto. cbn [Nat.sub]. rewrite Hread. reflexivity. }
  rewrite Hb.
  set (b := readInto c' (replicate 3 0) 0 1 offset).
  destruct (tableAt_len (default 0 (b !! 0%nat))) as [H | [H | [H | H]]]; rewrite H.
  - reflexivity.
  - reflexivity.
  - change (1 <? 2) with true. cbv iota.
    change (Z.to_nat (uint8 (2 - 1))) with 1%nat.
    rewrite !readInto_empty. reflexivity.
  - change (1 <? 3) with true. cbv iota.
    change (Z.to_nat (uint8 (3 - 1))) with 2%nat.
    unfold readInto. cbn [Nat.sub]. rewrite Hread. reflexivity.
Qed.

Lemma ReadInstruction_reads_one_byte_witness :
  ReadInstruction ljmp_mem 0 = ReadInstruction (sliceMem [0x02; 0xAA; 0xBB; 0xCC]) 0.
Proof.
  apply (ReadInstruction_reads_one_byte ljmp_mem (sliceMem [0x02; 0xAA; 0xBB; 0xCC]) 0).
  reflexivity.
Defined.


Lemma decodeTable_patterns : forallb pattern_ok (seq 0 256) = true.
Proof. vm_compute. reflexivity. Qed.

Lemma decoded_eqb_eq x y : decoded_eqb x y = true -> x = y.
Proof.
  unfold decoded_eqb. intros H. apply andb_prop in H. destruct H as [Hl Ho].
  apply Z.eqb_eq in Hl. apply OpCode_eqb_eq in Ho.
  destruct x, y. cbn in *. subst. reflexivity.
Qed.

(** X14. The table follows the bit patterns of the addressing modes: the
    mnemonic is [AJMP] exactly for the opcodes [xxx00001] and [ACALL]
    exactly for [xxx10001], both two bytes long; an opcode with bit 3 set
    has the entry of the opcode with its low three bits cleared (the eight
    registers share one entry), and an opcode ending in [011x] has the
    entry of the opcode with its lowest bit cleared ([@R0] and [@R1] share
    one entry). *)
Theorem decodeTable_addressing_patterns (b : Z) :
  0 <= b < 256 ->
  (op (tableAt b) = AJMP <-> Z.land b 0x1F = 0x01) /\
  (op (tableAt b) = ACALL <-> Z.land b 0x1F = 0x11) /\
  (op (tableAt b) = AJMP \/ op (tableAt b) = ACALL -> len (tableAt b) = 2) /\
  (Z.testbit b 3 = true -> tableAt b = tableAt (Z.land b 0xF8)) /\
  (Z.land b 0x0E = 0x06 -> tableAt b = tableAt (Z.land b 0xFE)).
Proof.
  intros Hb.
  pose proof decodeTable_patterns as Hall.
  rewrite forallb_forall in Hall.
  specialize (Hall (Z.to_nat b)).
  assert (Hin : In (Z.to_nat b) (seq 0 256)) by (apply in_seq; lia).
  specialize (Hall Hin). unfold pattern_ok in Hall.
  rewrite Z2Nat.id in Hall by lia.
  repeat (apply andb_prop in Hall; destruct Hall as [Hall ?]).
  apply Bool.eqb_prop in Hall.
  match goal with H : Bool.eqb _ _ = true |- _ => apply Bool.eqb_prop in H; rename H into Hacall end.
  split; [| split; [| split; [| split]]].
  - rewrite <- OpCode_eqb_eq, Hall. apply Z.eqb_eq.
  - rewrite <- OpCode_eqb_eq, Hacall. apply Z.eqb_eq.
  - intros Hop.
    assert (Hor : OpCode_eqb (op (tableAt b)) AJMP || OpCode_eqb (op (tableAt b)) ACALL = true).
    { apply Bool.orb_true_iff. destruct Hop as [Hop | Hop]; [left | right];
        apply OpCode_eqb_eq; exact Hop. }
    match goal with H : (if OpCode_eqb _ AJMP || _ then _ else _) = true |- _ =>
      rewrite Hor in H; apply Z.eqb_eq in H; exact H end.
  - intros Hbit.
    match goal with H : (if Z.testbit b 3 then _ else _) = true |- _ =>
      rewrite Hbit in H; apply decoded_eqb_eq in H; exact H end.
  - intros Hind. apply Z.eqb_eq in Hind.
    match goal with H : (if Z.land b 14 =? 6 then _ else _) = true |- _ =>
      rewrite Hind in H; apply decoded_eqb_eq in H; exact H end.
Qed.

Lemma decodeTable_addressing_patterns_witness :
  (op (tableAt 0xE1) = AJMP <-> Z.land 0xE1 0x1F = 0x01) /\
  (op (tableAt 0xE1) = ACALL <-> Z.land 0xE1 0x1F = 0x11) /\
  (op (tableAt 0xE1) = AJMP \/ op (tableAt 0xE1) = ACALL -> len (tableAt 0xE1) = 2) /\
  (Z.testbit 0xE1 3 = true -> tableAt 0xE1 = tableAt (Z.land 0xE1 0xF8)) /\
  (Z.land 0xE1 0x0E = 0x06 -> tableAt 0xE1 = tableAt (Z.land 0xE1 0xFE)).
Proof. apply (decodeTable_addressing_patterns 0xE1). lia. Defined.

(** * Properties of the hex file memory *)

Ltac u32 :=
  unfold ihex.contains, ihex.rec_ok, ihex.endOf, ihex.len32, ihex.is_uint32,
    ihex.uint32 in *;
  Z.to_euclidean_division_equations; lia.

Lemma ihex_uint32_range z : ihex.is_uint32 (ihex.uint32 z).
Proof. u32. Qed.

Lemma ihex_uint32_id z : ihex.is_uint32 z -> ihex.uint32 z = z.
Proof. intros H. u32. Qed.

Lemma ihex_int64_id z :
  - 9223372036854775808 <= z < 9223372036854775808 -> ihex.int64 z = z.
Proof. intros H. unfold ihex.int64. Z.to_euclidean_division_equations. lia. Qed.

(** The index of [fillByte] and [GetByte] is inside the data whenever their
    guards hold, wrap-around of the record's end included. *)
Lemma dataAt_in_range (r : ihex.Record_) (addr : Z) :
  ihex.is_uint32 (ihex.Offset r) -> ihex.is_uint32 addr ->
  ihex.Offset r <= addr -> addr < ihex.uint32 (ihex.Offset r + ihex.len32 r) ->
  is_Some (ihex.dataAt r addr).
Proof.
  intros Ho Ha Hle Hlt. unfold ihex.dataAt. apply lookup_lt_is_Some_2.
  assert (Hidx : ihex.uint32 (addr - ihex.Offset r) = addr - ihex.Offset r) by u32.
  rewrite Hidx.
  assert (Hb : addr - ihex.Offset r < Z.of_nat (length (ihex.Data r))) by u32.
  lia.
Qed.

Lemma overlaps_1_ge (r : ihex.Record_) (addr : Z) :
  ihex.is_uint32 addr -> ihex.overlaps addr 1 r = true ->
  ihex.Offset r <= addr /\ addr < ihex.uint32 (ihex.Offset r + ihex.len32 r).
Proof.
  intros Ha H. unfold ihex.overlaps in H.
  apply andb_prop in H. destruct H as [H1 H2].
  apply Z.ltb_lt in H1. apply Z.ltb_lt in H2. split; [| exact H1]. u32.
Qed.

Lemma fillByte_no_panic (r : ihex.Record_) (addr pad : Z) :
  ihex.is_uint32 (ihex.Offset r) -> ihex.is_uint32 addr ->
  ihex.fillByte addr r pad <> ihex.IndexPanic.
Proof.
  intros Ho Ha. unfold ihex.fillByte.
  destruct (Z.ltb_spec addr (ihex.Offset r)) as [Hlt | Hge]; [discriminate |].
  destruct (Z.ltb_spec addr (ihex.uint32 (ihex.Offset r + ihex.len32 r))) as [Hin | Hout];
    [| discriminate].
  destruct (dataAt_in_range r addr Ho Ha Hge Hin) as [v Hv].
  rewrite Hv. discriminate.
Qed.

Lemma Forall_List_filter {A} (P : A -> Prop) (p : A -> bool) (l : list A) :
  Forall P l -> Forall P (List.filter p l).
Proof.
  induction 1 as [| x l Hx Hl IH]; cbn [List.filter].
  - constructor.
  - destruct (p x); [constructor; assumption | exact IH].
Qed.

Lemma fillFrom_no_panic (s : list ihex.Record_) (addr pad : Z) :
  ihex.offsets_ok s -> ihex.is_uint32 addr ->
  exists v s', ihex.fillFrom addr s pad = Some (v, s') /\ ihex.offsets_ok s'.
Proof.
  intros Hs Ha. induction Hs as [| r s Hr Hs IH]; cbn [ihex.fillFrom].
  - exists pad, []. split; [reflexivity | constructor].
  - pose proof (fillByte_no_panic r addr pad Hr Ha) as Hnp.
    destruct (ihex.fillByte addr r pad) as [v | |].
    + exists v, (r :: s). split; [reflexivity | constructor; assumption].
    + exact IH.
    + contradiction.
Qed.

Lemma retrieveLoop_no_panic (offset : Z) (n i : nat) (s : list ihex.Record_) (pad : Z) :
  ihex.offsets_ok s ->
  exists bytes, ihex.retrieveLoop offset i n s pad = Some bytes /\ length bytes = n.
Proof.
  revert i s. induction n as [| n IH]; intros i s Hs; cbn [ihex.retrieveLoop].
  - exists []. split; reflexivity.
  - destruct (fillFrom_no_panic s (ihex.uint32 (offset + ihex.uint32 (Z.of_nat i))) pad Hs
                (ihex_uint32_range _)) as (v & s' & Hf & Hs').
    rewrite Hf.
    destruct (IH (S i) s' Hs') as (rest & Hrest & Hlen).
    rewrite Hrest. exists (v :: rest). split; [reflexivity |].
    cbn [length]. rewrite Hlen. reflexivity.
Qed.

(** X15. Reading a file never runs out of the data of a record: for every
    list of records (sorted or not, overlapping or not) and every address,
    [GetByte] returns a byte, and [Retrieve] fills a buffer of any length
    completely, both without an index panic, also when the end of a record
    wraps around the 32-bit address space. *)
Theorem ihex_reads_never_panic (f : ihex.File) (addr offset pad : Z) (n : nat) :
  ihex.offsets_ok (ihex.Memory f) -> ihex.is_uint32 addr ->
  is_Some (ihex.GetByte f addr pad) /\
  exists bytes, ihex.Retrieve f offset n pad = Some bytes /\ length bytes = n.
Proof.
  intros Hf Ha. split.
  - unfold ihex.GetByte, ihex.GetSegments.
    destruct (List.filter (ihex.overlaps addr 1) (ihex.Memory f)) as [| s0 rest] eqn:Hs.
    + eexists. reflexivity.
    + assert (Hin : In s0 (List.filter (ihex.overlaps addr 1) (ihex.Memory f))).
      { rewrite Hs. left. reflexivity. }
      apply filter_In in Hin. destruct Hin as [Hmem Hov].
      destruct (overlaps_1_ge s0 addr Ha Hov) as [Hge Hlt].
      apply dataAt_in_range; try assumption.
      unfold ihex.offsets_ok in Hf. rewrite Forall_forall in Hf.
      apply Hf. apply list_elem_of_In. exact Hmem.
  - unfold ihex.Retrieve. apply retrieveLoop_no_panic.
    unfold ihex.GetSegments. apply Forall_List_filter. exact Hf.
Qed.

Lemma file1_offsets_ok : ihex.offsets_ok (ihex.Memory ihex.file1).
Proof. repeat constructor; cbn; lia. Qed.

Lemma ihex_reads_never_panic_witness :
  is_Some (ihex.GetByte ihex.file1 0x11 0xFF) /\
  exists bytes, ihex.Retrieve ihex.file1 0x0F 4 0xFF = Some bytes /\ length bytes = 4%nat.
Proof.
  apply (ihex_reads_never_panic ihex.file1 0x11 0x0F 0xFF 4).
  - exact file1_offsets_ok.
  - unfold ihex.is_uint32. lia.
Defined.

(** ** Records in order *)

Lemma GetByte_byteIn (f : ihex.File) (addr pad : Z) :
  ihex.GetByte f addr pad = ihex.byteIn (ihex.Memory f) addr pad.
Proof. reflexivity. Qed.

Lemma endOf_ge (r : ihex.Record_) : ihex.Offset r <= ihex.endOf r.
Proof. unfold ihex.endOf. lia. Qed.

Lemma overlapLoop_ordered (m : list ihex.Record_) (p : Z) :
  ihex.overlapLoop p m = true ->
  Forall (fun r' => p <= ihex.Offset r') m /\ ihex.ordered m.
Proof.
  revert p. induction m as [| v m IH]; intros p H; cbn [ihex.overlapLoop ihex.ordered] in *.
  - split; [constructor | exact I].
  - destruct (Z.ltb_spec (ihex.Offset v) p) as [Hlt | Hge]; [discriminate H |].
    destruct (IH _ H) as [Hall Hord].
    fold (ihex.endOf v) in Hall.
    split; [| split; assumption].
    constructor; [exact Hge |].
    eapply Forall_impl; [exact Hall |].
    intros r' Hr'. cbn beta in Hr'. pose proof (endOf_ge v). lia.
Qed.

Lemma overlapFree_ordered (m : list ihex.Record_) :
  ihex.overlapFree m = true -> ihex.ordered m.
Proof.
  destruct m as [| r0 rest]; cbn [ihex.overlapFree ihex.ordered]; intros H.
  - exact I.
  - apply overlapLoop_ordered in H. exact H.
Qed.

Lemma ordered_filter (p : ihex.Record_ -> bool) (m : list ihex.Record_) :
  ihex.ordered m -> ihex.ordered (List.filter p m).
Proof.
  induction m as [| r m IH]; cbn [ihex.ordered List.filter]; intros H.
  - exact I.
  - destruct H as [Hall Hord]. destruct (p r); cbn [ihex.ordered].
    + split; [apply Forall_List_filter; exact Hall | apply IH; exact Hord].
    + apply IH. exact Hord.
Qed.

Lemma overlaps_1_contains (r : ihex.Record_) (addr : Z) :
  ihex.rec_ok r -> ihex.is_uint32 addr ->
  ihex.overlaps addr 1 r = true <-> ihex.contains r addr.
Proof.
  intros Hr Ha. unfold ihex.overlaps.
  rewrite Bool.andb_true_iff, !Z.ltb_lt. u32.
Qed.

Lemma overlaps_1_false (r : ihex.Record_) (addr : Z) :
  ihex.rec_ok r -> ihex.is_uint32 addr ->
  ~ ihex.contains r addr -> ihex.overlaps addr 1 r = false.
Proof.
  intros Hr Ha Hn. apply Bool.not_true_is_false. intros H.
  apply Hn. apply overlaps_1_contains; assumption.
Qed.

Lemma overlaps_behind (r : ihex.Record_) (addr : Z) :
  ihex.rec_ok r -> ihex.endOf r <= addr -> ihex.overlaps addr 1 r = false.
Proof.
  intros Hr Hge. unfold ihex.overlaps.
  apply Bool.andb_false_iff. left. apply Z.ltb_ge. u32.
Qed.

Lemma overlaps_widen (r : ihex.Record_) (offset addr : Z) (n : nat) :
  ihex.rec_ok r -> 0 <= offset -> offset + Z.of_nat n < 4294967296 ->
  offset <= addr < offset + Z.of_nat n ->
  ihex.overlaps addr 1 r = true ->
  ihex.overlaps offset (ihex.uint32 (Z.of_nat n)) r = true.
Proof.
  intros Hr Ho Hn Ha H.
  assert (Hau : ihex.is_uint32 addr) by (unfold ihex.is_uint32; lia).
  apply (overlaps_1_contains r addr Hr Hau) in H.
  unfold ihex.overlaps. rewrite Bool.andb_true_iff, !Z.ltb_lt. u32.
Qed.

Lemma List_filter_nil {A} (p : A -> bool) (l : list A) :
  Forall (fun x => p x = false) l -> List.filter p l = [].
Proof.
  induction 1 as [| x l Hx Hl IH]; cbn [List.filter].
  - reflexivity.
  - rewrite Hx. exact IH.
Qed.

Lemma List_filter_filter {A} (p q : A -> bool) (l : list A) :
  Forall (fun x => p x = true -> q x = true) l ->
  List.filter p (List.filter q l) = List.filter p l.
Proof.
  induction 1 as [| x l Hx Hl IH]; cbn [List.filter].
  - reflexivity.
  - destruct (q x) eqn:Hq; cbn [List.filter].
    + rewrite IH. reflexivity.
    + destruct (p x) eqn:Hp.
      * specialize (Hx eq_refl). congruence.
      * exact IH.
Qed.

(** One round of [Retrieve]: the byte stored is the byte [GetByte] finds
    among the segments left, and the segments dropped hold no later
    address. *)
Lemma fillFrom_spec (s : list ihex.Record_) (addr pad : Z) :
  ihex.ordered s -> Forall ihex.rec_ok s -> ihex.is_uint32 addr ->
  exists v s',
    ihex.fillFrom addr s pad = Some (v, s') /\
    ihex.byteIn s addr pad = Some v /\
    ihex.ordered s' /\ Forall ihex.rec_ok s' /\
    forall addr', addr < addr' ->
      List.filter (ihex.overlaps addr' 1) s' = List.filter (ihex.overlaps addr' 1) s.
Proof.
  intros Hord Hok Ha. induction Hok as [| r s Hr Hs IH].
  - exists pad, []. cbn. repeat split; auto.
  - cbn [ihex.ordered] in Hord. destruct Hord as [Hall Hord].
    cbn [ihex.fillFrom]. unfold ihex.fillByte.
    destruct (Z.ltb_spec addr (ihex.Offset r)) as [Hlt | Hge].
    + (* before the record: pad, and no later record holds the address *)
      exists pad, (r :: s). split; [reflexivity |]. split.
      * unfold ihex.byteIn. rewrite List_filter_nil; [reflexivity |].
        constructor.
        -- apply overlaps_1_false; try assumption. u32.
        -- rewrite Forall_forall in Hall, Hs. apply Forall_forall. intros r' Hr'.
           apply overlaps_1_false; [apply Hs; exact Hr' | exact Ha |].
           specialize (Hall r' Hr'). cbn beta in Hall.
           pose proof (endOf_ge r). u32.
      * split; [split; assumption |]. split; [constructor; assumption |].
        intros addr' Hlater. reflexivity.
    + destruct (Z.ltb_spec addr (ihex.uint32 (ihex.Offset r + ihex.len32 r))) as [Hin | Hout].
      * (* inside the record *)
        assert (Hro : ihex.is_uint32 (ihex.Offset r)) by u32.
        destruct (dataAt_in_range r addr Hro Ha Hge Hin) as [v Hv].
        rewrite Hv. exists v, (r :: s). split; [reflexivity |]. split.
        -- unfold ihex.byteIn. cbn [List.filter].
           assert (Hov : ihex.overlaps addr 1 r = true).
           { apply overlaps_1_contains; try assumption. u32. }
           rewrite Hov. exact Hv.
        -- split; [split; assumption |]. split; [constructor; assumption |].
           intros addr' Hlater. reflexivity.
      * (* behind the record: go on with the next one *)
        assert (Hend : ihex.endOf r <= addr) by u32.
        destruct (IH Hord) as (v & s' & Hf & Hb & Hord' & Hok' & Hfil).
        exists v, s'. split; [exact Hf |]. split.
        -- unfold ihex.byteIn in *. cbn [List.filter].
           rewrite (overlaps_behind r addr Hr Hend). exact Hb.
        -- split; [exact Hord' |]. split; [exact Hok' |].
           intros addr' Hlater. cbn [List.filter].
           rewrite (overlaps_behind r addr' Hr) by lia. apply Hfil. exact Hlater.
Qed.

Lemma retrieveLoop_spec (offset : Z) (n i : nat) (s : list ihex.Record_) (pad : Z) :
  ihex.ordered s -> Forall ihex.rec_ok s ->
  0 <= offset -> offset + Z.of_nat i + Z.of_nat n < 4294967296 ->
  exists bytes,
    ihex.retrieveLoop offset i n s pad = Some bytes /\
    length bytes = n /\
    forall k, (k < n)%nat ->
      bytes !! k = ihex.byteIn s (offset + Z.of_nat i + Z.of_nat k) pad.
Proof.
  revert i s. induction n as [| n IH]; intros i s Hord Hok Ho Hn;
    cbn [ihex.retrieveLoop].
  - exists []. split; [reflexivity |]. split; [reflexivity |]. intros k Hk. lia.
  - assert (Haddr : ihex.uint32 (offset + ihex.uint32 (Z.of_nat i)) = offset + Z.of_nat i)
      by u32.
    rewrite Haddr.
    assert (Ha : ihex.is_uint32 (offset + Z.of_nat i)) by (unfold ihex.is_uint32; lia).
    destruct (fillFrom_spec s (offset + Z.of_nat i) pad Hord Hok Ha)
      as (v & s' & Hf & Hb & Hord' & Hok' & Hfil).
    rewrite Hf.
    destruct (IH (S i) s' Hord' Hok' Ho) as (rest & Hrest & Hlen & Hk); [lia |].
    rewrite Hrest. exists (v :: rest).
    split; [reflexivity |]. split; [cbn [length]; rewrite Hlen; reflexivity |].
    intros k Hlt. destruct k as [| k].
    + cbn. rewrite Z.add_0_r. symmetry. exact Hb.
    + cbn [lookup list_lookup]. change ((v :: rest) !! S k) with (rest !! k).
      rewrite Hk by lia.
      replace (offset + Z.of_nat (S i) + Z.of_nat k)
        with (offset + Z.of_nat i + Z.of_nat (S k)) by lia.
      unfold ihex.byteIn. rewrite Hfil by lia. reflexivity.
Qed.

Lemma File_ok_ordered (f : ihex.File) : ihex.File_ok f -> ihex.ordered (ihex.Memory f).
Proof. intros [_ H]. apply overlapFree_ordered. exact H. Qed.

Lemma Retrieve_spec (f : ihex.File) (offset pad : Z) (n : nat) :
  ihex.File_ok f -> 0 <= offset -> offset + Z.of_nat n < 4294967296 ->
  exists bytes,
    ihex.Retrieve f offset n pad = Some bytes /\
    length bytes = n /\
    forall k, (k < n)%nat ->
      bytes !! k = ihex.GetByte f (offset + Z.of_nat k) pad.
Proof.
  intros Hf Ho Hn. unfold ihex.Retrieve, ihex.GetSegments.
  set (q := ihex.overlaps offset (ihex.uint32 (Z.of_nat n))).
  destruct (retrieveLoop_spec offset n 0 (List.filter q (ihex.Memory f)) pad)
    as (bytes & Hr & Hlen & Hk).
  - apply ordered_filter. apply File_ok_ordered. exact Hf.
  - apply Forall_List_filter. exact (proj1 Hf).
  - exact Ho.
  - lia.
  - exists bytes. split; [exact Hr |]. split; [exact Hlen |].
    intros k Hlt. rewrite Hk by exact Hlt. rewrite Z.add_0_r.
    rewrite GetByte_byteIn. unfold ihex.byteIn.
    rewrite List_filter_filter; [reflexivity |].
    eapply Forall_impl; [exact (proj1 Hf) |].
    intros r Hr' Hov. cbn beta. subst q.
    apply (overlaps_widen r offset (offset + Z.of_nat k) n); try assumption. lia.
Qed.

(** X16. In a file whose records end below [2^32] and pass the overlap
    check of [Parse], [GetByte] returns the data byte of the record that
    holds the address, and the pad byte when no record holds it. *)
Theorem GetByte_hit_or_pad (f : ihex.File) (addr pad : Z) :
  ihex.File_ok f -> ihex.is_uint32 addr ->
  (forall r, In r (ihex.Memory f) -> ihex.contains r addr ->
     ihex.GetByte f addr pad = ihex.Data r !! Z.to_nat (addr - ihex.Offset r)) /\
  ((forall r, In r (ihex.Memory f) -> ~ ihex.contains r addr) ->
     ihex.GetByte f addr pad = Some pad).
Proof.
  intros Hf Ha. rewrite GetByte_byteIn.
  pose proof (File_ok_ordered f Hf) as Hord. destruct Hf as [Hok _].
  split.
  - intros r Hin Hc. induction Hok as [| x m Hx Hm IH].
    + destruct Hin.
    + cbn [ihex.ordered] in Hord. destruct Hord as [Hall Hord].
      unfold ihex.byteIn. cbn [List.filter].
      destruct (ihex.overlaps addr 1 x) eqn:Hov.
      * apply (overlaps_1_contains x addr Hx Ha) in Hov.
        destruct Hin as [-> | Hin].
        -- unfold ihex.dataAt. f_equal. f_equal. u32.
        -- rewrite Forall_forall in Hall.
           specialize (Hall r (proj2 (list_elem_of_In _ _) Hin)). cbn beta in Hall.
           exfalso. u32.
      * destruct Hin as [-> | Hin].
        -- apply (overlaps_1_contains r addr Hx Ha) in Hc. congruence.
        -- apply IH; assumption.
  - intros Hnone. unfold ihex.byteIn. rewrite List_filter_nil; [reflexivity |].
    rewrite Forall_forall in Hok. apply Forall_forall. intros r Hr.
    apply overlaps_1_false; [apply Hok; exact Hr | exact Ha |].
    apply Hnone. apply list_elem_of_In. exact Hr.
Qed.

Lemma file1_ok : ihex.File_ok ihex.file1.
Proof.
  split; [| reflexivity].
  repeat constructor; cbn; lia.
Qed.

Lemma GetByte_hit_or_pad_witness :
  (forall r, In r (ihex.Memory ihex.file1) -> ihex.contains r 0x11 ->
     ihex.GetByte ihex.file1 0x11 0xFF = ihex.Data r !! Z.to_nat (0x11 - ihex.Offset r)) /\
  ((forall r, In r (ihex.Memory ihex.file1) -> ~ ihex.contains r 0x11) ->
     ihex.GetByte ihex.file1 0x11 0xFF = Some 0xFF).
Proof.
  apply (GetByte_hit_or_pad ihex.file1 0x11 0xFF).
  - exact file1_ok.
  - unfold ihex.is_uint32. lia.
Defined.

(** X17. In a file whose records end below [2^32] and pass the overlap
    check of [Parse], [Retrieve] fills a buffer of length [n] with the bytes [GetByte] gives for the
    addresses [offset], [offset + 1], ..., provided the block ends below
    [2^32]: record data where a record lies, the pad byte elsewhere. *)
Theorem Retrieve_is_GetByte (f : ihex.File) (offset pad : Z) (n : nat) :
  ihex.File_ok f -> 0 <= offset -> offset + Z.of_nat n < 4294967296 ->
  exists bytes,
    ihex.Retrieve f offset n pad = Some bytes /\
    length bytes = n /\
    forall k, (k < n)%nat ->
      bytes !! k = ihex.GetByte f (offset + Z.of_nat k) pad.
Proof. apply Retrieve_spec. Qed.

Lemma Retrieve_is_GetByte_witness :
  exists bytes,
    ihex.Retrieve ihex.file1 0x0E 6 0xFF = Some bytes /\
    length bytes = 6%nat /\
    forall k, (k < 6)%nat ->
      bytes !! k = ihex.GetByte ihex.file1 (0x0E + Z.of_nat k) 0xFF.
Proof.
  apply (Retrieve_is_GetByte ihex.file1 0x0E 0xFF 6).
  - exact file1_ok.
  - lia.
  - lia.
Defined.

(** ** The size of a file *)

Lemma Size_range (f : ihex.File) : 0 <= ihex.Size f < 4294967296.
Proof.
  unfold ihex.Size. destruct (last (ihex.Memory f)) as [r |]; [| lia].
  pose proof (ihex_uint32_range (ihex.Offset r + ihex.len32 r)) as H.
  unfold ihex.is_uint32 in H. rewrite ihex_int64_id; lia.
Qed.

Lemma ordered_last (m : list ihex.Record_) (r : ihex.Record_) :
  ihex.ordered m -> In r m ->
  exists l, last m = Some l /\ In l m /\ ihex.endOf r <= ihex.endOf l.
Proof.
  revert r. induction m as [| x m IH]; intros r Hord Hin.
  - destruct Hin.
  - cbn [ihex.ordered] in Hord. destruct Hord as [Hall Hord].
    destruct m as [| y m'].
    + destruct Hin as [-> | []]. exists r. cbn. split; [reflexivity |].
      split; [left; reflexivity | lia].
    + destruct (IH y Hord (or_introl eq_refl)) as (l & Hl & Hlin & _).
      change (last (x :: y :: m')) with (last (y :: m')).
      destruct Hin as [-> | Hin].
      * exists l. split; [exact Hl |]. split; [right; exact Hlin |].
        rewrite Forall_forall in Hall.
        specialize (Hall l (proj2 (list_elem_of_In _ _) Hlin)). cbn beta in Hall.
        pose proof (endOf_ge l). lia.
      * destruct (IH r Hord Hin) as (l' & Hl' & Hlin' & Hle).
        exists l'. split; [exact Hl' |]. split; [right; exact Hlin' | exact Hle].
Qed.

Lemma Size_endOf (f : ihex.File) (r : ihex.Record_) :
  ihex.File_ok f -> In r (ihex.Memory f) -> ihex.endOf r <= ihex.Size f.
Proof.
  intros Hf Hin.
  destruct (ordered_last _ r (File_ok_ordered f Hf) Hin) as (l & Hl & Hlin & Hle).
  unfold ihex.Size. rewrite Hl.
  destruct Hf as [Hok _]. rewrite Forall_forall in Hok.
  specialize (Hok l (proj2 (list_elem_of_In _ _) Hlin)).
  assert (He : ihex.uint32 (ihex.Offset l + ihex.len32 l) = ihex.endOf l) by u32.
  rewrite He, ihex_int64_id; [exact Hle |]. u32.
Qed.

Lemma byteIn_none (m : list ihex.Record_) (addr pad : Z) :
  Forall ihex.rec_ok m -> ihex.is_uint32 addr ->
  (forall r, In r m -> ~ ihex.contains r addr) ->
  ihex.byteIn m addr pad = Some pad.
Proof.
  intros Hok Ha Hnone. unfold ihex.byteIn. rewrite List_filter_nil; [reflexivity |].
  rewrite Forall_forall in Hok. apply Forall_forall. intros r Hr.
  apply overlaps_1_false; [apply Hok; exact Hr | exact Ha |].
  apply Hnone. apply list_elem_of_In. exact Hr.
Qed.

(** X18. In a file whose records end below [2^32] and pass the overlap
    check of [Parse], [Size] is an address below [2^32] at or behind the end of every record, so from
    [Size] on every address reads as the pad byte; an empty file has
    size 0. *)
Theorem Size_bounds_the_data (f : ihex.File) (addr pad : Z) :
  ihex.File_ok f -> ihex.is_uint32 addr -> ihex.Size f <= addr ->
  (forall r, In r (ihex.Memory f) -> ihex.endOf r <= ihex.Size f) /\
  0 <= ihex.Size f < 4294967296 /\
  ihex.GetByte f addr pad = Some pad /\
  (ihex.Memory f = [] -> ihex.Size f = 0).
Proof.
  intros Hf Ha Hge. split; [| split; [| split]].
  - intros r Hin. apply Size_endOf; assumption.
  - apply Size_range.
  - rewrite GetByte_byteIn. apply byteIn_none; [exact (proj1 Hf) | exact Ha |].
    intros r Hin Hc. pose proof (Size_endOf f r Hf Hin) as Hle.
    unfold ihex.contains in Hc. lia.
  - intros He. unfold ihex.Size. rewrite He. reflexivity.
Qed.

Lemma Size_bounds_the_data_witness :
  (forall r, In r (ihex.Memory ihex.file1) -> ihex.endOf r <= ihex.Size ihex.file1) /\
  0 <= ihex.Size ihex.file1 < 4294967296 /\
  ihex.GetByte ihex.file1 0x12 0xFF = Some 0xFF /\
  (ihex.Memory ihex.file1 = [] -> ihex.Size ihex.file1 = 0).
Proof.
  apply (Size_bounds_the_data ihex.file1 0x12 0xFF).
  - exact file1_ok.
  - unfold ihex.is_uint32. lia.
  - vm_compute. discriminate.
Defined.

(** ** The file reader *)





(** X21. Positioning and reading is reading at a position: after
    [Seek(off, 0)] to an offset inside the file, [Read] stores the bytes and
    returns the count and the error that [ReadAt] gives for the same buffer
    length at [off], and it leaves the reader at [off] plus that count. *)
Theorem Seek_then_Read_is_ReadAt (fr : ihex.FileReader) (r : list Z) (off : Z) :
  0 <= off < ihex.Size (ihex.fr_File fr) ->
  Z.of_nat (length r) < 4294967296 ->
  ihex.Seek fr off 0 = (ihex.setOffset fr off, off, None) /\
  ihex.Read (ihex.setOffset fr off) r
  = match ihex.ReadAt fr (length r) off with
    | Some (bytes, cnt, err) => Some (ihex.setOffset fr (off + cnt), bytes, cnt, err)
    | None => None
    end.
Proof.
  intros Ho Hn.
  pose proof (Size_range (ihex.fr_File fr)) as Hs.
  split.
  - unfold ihex.Seek. cbn [Z.eqb ihex.setOffset ihex.fr_Offset].
    destruct (Z.ltb_spec off 0); [lia | reflexivity].
  - unfold ihex.Read, ihex.ReadAt.
    cbn [ihex.setOffset ihex.fr_File ihex.fr_Offset ihex.fr_Pad].
    rewrite (ihex_int64_id (ihex.Size (ihex.fr_File fr) - off)) by lia.
    rewrite (ihex_int64_id (off + Z.of_nat (length r))) by lia.
    destruct (Z.leb_spec (ihex.Size (ihex.fr_File fr) - off) 0); [lia |].
    destruct (ihex.Retrieve (ihex.fr_File fr) (ihex.uint32 off) (length r) (ihex.fr_Pad fr));
      [| reflexivity].
    destruct (Z.ltb_spec (ihex.Size (ihex.fr_File fr) - off) (Z.of_nat (length r)));
      destruct (Z.ltb_spec (ihex.Size (ihex.fr_File fr)) (off + Z.of_nat (length r)));
      try lia.
    + rewrite ihex_int64_id by lia. reflexivity.
    + reflexivity.
Qed.

Lemma Seek_then_Read_is_ReadAt_witness :
  ihex.Seek ihex.reader1 0x10 0 = (ihex.setOffset ihex.reader1 0x10, 0x10, None) /\
  ihex.Read (ihex.setOffset ihex.reader1 0x10) [0; 0; 0; 0]
  = match ihex.ReadAt ihex.reader1 (length [0; 0; 0; 0]) 0x10 with
    | Some (bytes, cnt, err) => Some (ihex.setOffset ihex.reader1 (0x10 + cnt), bytes, cnt, err)
    | None => None
    end.
Proof.
  apply (Seek_then_Read_is_ReadAt ihex.reader1 [0; 0; 0; 0] 0x10).
  - vm_compute. split; [discriminate | reflexivity].
  - cbn. lia.
Defined.

(** X22. [Seek] with a whence other than 0, 1 or 2 reports
    [ErrUnsupportedWhence] and leaves the reader where it was.  With whence
    0 it reports [ErrNegativeOffset] exactly for a negative offset, and in
    that case the reader has been moved to the negative offset all the
    same; the position returned is always the reader's offset after the
    call. *)
Theorem Seek_errors (fr : ihex.FileReader) (offset whence : Z) :
  (whence <> 0 -> whence <> 1 -> whence <> 2 ->
     ihex.Seek fr offset whence = (fr, ihex.fr_Offset fr, Some ihex.ErrUnsupportedWhence)) /\
  (offset < 0 ->
     ihex.Seek fr offset 0 = (ihex.setOffset fr offset, offset, Some ihex.ErrNegativeOffset)) /\
  (0 <= offset ->
     ihex.Seek fr offset 0 = (ihex.setOffset fr offset, offset, None)) /\
  snd (fst (ihex.Seek fr offset whence)) = ihex.fr_Offset (fst (fst (ihex.Seek fr offset whence))).
Proof.
  split; [| split; [| split]].
  - intros H0 H1 H2. unfold ihex.Seek.
    destruct (Z.eqb_spec whence 0); [contradiction |].
    destruct (Z.eqb_spec whence 1); [contradiction |].
    destruct (Z.eqb_spec whence 2); [contradiction |]. reflexivity.
  - intros Hneg. unfold ihex.Seek. cbn [Z.eqb ihex.setOffset ihex.fr_Offset].
    destruct (Z.ltb_spec offset 0); [reflexivity | lia].
  - intros Hpos. unfold ihex.Seek. cbn [Z.eqb ihex.setOffset ihex.fr_Offset].
    destruct (Z.ltb_spec offset 0); [lia | reflexivity].
  - unfold ihex.Seek.
    destruct (whence =? 0); [| destruct (whence =? 1); [| destruct (whence =? 2)]];
      cbn [ihex.setOffset ihex.fr_Offset];
      try match goal with |- context [if ?c then _ else _] => destruct c end;
      reflexivity.
Qed.

(** * Properties of the checksum and of the map-backed memory *)

Lemma int8_mod z : hex.int8 z mod 256 = z mod 256.
Proof. unfold hex.int8. Z.to_euclidean_division_equations. lia. Qed.

Lemma int8_range z : -128 <= hex.int8 z < 128.
Proof. unfold hex.int8. Z.to_euclidean_division_equations. lia. Qed.

Lemma checksum_fold (data : list Z) (acc : Z) :
  fold_left (fun sum v => hex.int8 (sum + hex.int8 v)) data acc mod 256
  = (acc + hex.byteSum data) mod 256.
Proof.
  revert acc. induction data as [| v data IH]; intros acc; cbn [fold_left hex.byteSum foldr].
  - rewrite Z.add_0_r. reflexivity.
  - rewrite IH. fold (hex.byteSum data).
    generalize (hex.byteSum data). intros t.
    unfold hex.int8. Z.to_euclidean_division_equations. lia.
Qed.

Lemma checksum_fold_range (data : list Z) (acc : Z) :
  -128 <= acc < 128 ->
  -128 <= fold_left (fun sum v => hex.int8 (sum + hex.int8 v)) data acc < 128.
Proof.
  revert acc. induction data as [| v data IH]; intros acc Hacc; cbn [fold_left].
  - exact Hacc.
  - apply IH. apply int8_range.
Qed.

Lemma byteSum_app (d1 d2 : list Z) :
  hex.byteSum (d1 ++ d2) = hex.byteSum d1 + hex.byteSum d2.
Proof.
  unfold hex.byteSum. induction d1 as [| x d1 IH]; cbn [app foldr].
  - reflexivity.
  - rewrite IH. lia.
Qed.

(** X23. [compareChecksum] accepts a record exactly when the sum of its
    bytes is a multiple of 256, and so every record completed with its
    checksum byte (the two's complement of the sum of the others) is
    accepted. *)
Theorem compareChecksum_spec (data : list Z) :
  (hex.compareChecksum data = true <-> hex.byteSum data mod 256 = 0) /\
  hex.compareChecksum (data ++ [hex.checksumByte data]) = true.
Proof.
  assert (H : forall d, hex.compareChecksum d = true <-> hex.byteSum d mod 256 = 0).
  { intros d. unfold hex.compareChecksum. rewrite Z.eqb_eq.
    pose proof (checksum_fold d 0) as Hm. rewrite Z.add_0_l in Hm.
    pose proof (checksum_fold_range d 0 ltac:(lia)) as Hr.
    rewrite <- Hm. split.
    - intros ->. reflexivity.
    - intros H0. Z.to_euclidean_division_equations. lia. }
  split; [apply H |].
  apply H. rewrite byteSum_app. unfold hex.checksumByte.
  cbn [hex.byteSum foldr]. rewrite Z.add_0_r.
  rewrite Zplus_mod_idemp_r, Z.add_opp_diag_r. reflexivity.
Qed.

